(** * go-ccip-read: signature parser, selector table and request pipeline

    A shallow embedding of the signature grammar parser
    ([ParseFunction], [parseParameters]) and of [resolver.go] (the
    selector table and the HTTP request pipeline) of the CCIP-Read
    gateway library, with the properties the specification states about
    them.

    Go strings are modelled as [string] (a sequence of bytes), byte
    slices as [list Byte.byte], [uint32] selectors as [Z] in the range
    [0, 2^32), the handler map as a [gmap Z _], and Go's
    value-or-error-or-panic outcomes as the three-way type [outcome]. *)

From Stdlib Require Import Ascii String ZArith.
From Stdlib.Strings Require Import Byte.
From stdpp Require Import gmap strings list vector.

Local Open Scope string_scope.

(** ** Outcomes of fallible Go code *)

(** A Go call returns normally with a value, returns a non-nil [error],
    or panics (here: a slice bound out of range). *)
Inductive outcome (E A : Type) : Type :=
| Ok (a : A)
| Err (e : E)
| Panic.
Arguments Ok {E A} a.
Arguments Err {E A} e.
Arguments Panic {E A}.

(** ** The fragment of package [strings] used by the parser *)

Module strings.

(** The ASCII white space of [strings.TrimSpace] and [strings.Fields]:
    tab, line feed, vertical tab, form feed, carriage return, space.
    On a string of bytes below [0x80] the two functions use exactly
    this set; once a byte from [0x80] on occurs they switch to
    [unicode.IsSpace] on the decoded runes (U+0085, U+00A0, ...), which
    is not modelled.  [TrimSpace], [Fields] and, with them,
    [parseParameters] are therefore the code's on ASCII strings only.
    The parser only ever passes captures of [FunctionRegex] to them,
    and those are ASCII (lemma [FunctionRegex_captures_ascii] below);
    a statement about [parseParameters] on a list that is not a capture
    carries the hypothesis [ascii_only]. *)
Definition isSpace (c : ascii) : bool :=
  let n := nat_of_ascii c in
  (Nat.leb 9 n && Nat.leb n 13) || Nat.eqb n 32.

(** [strings.Split(s, ",")]: the pieces between commas; never empty. *)
Fixpoint Split_comma (s : string) : list string :=
  match s with
  | EmptyString => [EmptyString]
  | String c s' =>
      if Ascii.eqb c ","%char then EmptyString :: Split_comma s'
      else match Split_comma s' with
           | piece :: rest => String c piece :: rest
           | [] => [String c EmptyString]
           end
  end.

Fixpoint TrimLeft (s : string) : string :=
  match s with
  | String c s' => if isSpace c then TrimLeft s' else s
  | EmptyString => EmptyString
  end.

(** Removes trailing white space; a string of white space only becomes
    empty. *)
Fixpoint TrimRight (s : string) : string :=
  match s with
  | EmptyString => EmptyString
  | String c s' =>
      match TrimRight s' with
      | EmptyString => if isSpace c then EmptyString else String c EmptyString
      | t => String c t
      end
  end.

Definition TrimSpace (s : string) : string := TrimRight (TrimLeft s).

(** [strings.Fields]: the maximal runs of non-space bytes, in order.
    A non-space byte either ends a field (end of input or white space
    follows) or extends the first field of the rest. *)
Fixpoint Fields (s : string) : list string :=
  match s with
  | EmptyString => []
  | String c s' =>
      if isSpace c then Fields s'
      else match s' with
           | EmptyString => [String c EmptyString]
           | String c' _ =>
               if isSpace c' then String c EmptyString :: Fields s'
               else match Fields s' with
                    | f :: fs => String c f :: fs
                    | [] => [String c EmptyString]
                    end
           end
  end.

End strings.

(** ** The fragment of package [regexp] used by the parser *)

Module regexp.

(** The syntax covers what [FunctionPattern] is built from: literals,
    one byte of a class, greedy repetition of a class, sequence,
    alternation and named capture groups. *)
Inductive regex : Type :=
| Lit (l : string)
| Class (p : ascii -> bool)
| Star (p : ascii -> bool)
| Plus (p : ascii -> bool)
| Cat (r1 r2 : regex)
| Alt (r1 r2 : regex)
| Group (name : string) (r : regex).

(** Captured groups, most recent first. *)
Definition captures : Type := list (string * string).

Fixpoint strip_prefix (l s : string) : option string :=
  match l, s with
  | EmptyString, _ => Some s
  | String a l', String b s' => if Ascii.eqb a b then strip_prefix l' s' else None
  | String _ _, EmptyString => None
  end.

(** The text consumed between [s] and its suffix [rest]. *)
Definition consumed (s rest : string) : string :=
  substring 0 (String.length s - String.length rest) s.

Section Match.
Context {R : Type}.

(** Greedy [p*]: take the longest run first, give bytes back one at a
    time when the continuation [k] fails. *)
Fixpoint star (p : ascii -> bool) (k : string -> option R) (s : string)
  : option R :=
  match s with
  | String c s' =>
      if p c then
        match star p k s' with
        | Some r => Some r
        | None => k s
        end
      else k s
  | EmptyString => k s
  end.

(** Backtracking match of [r] at the start of [s]; [k] receives the
    rest of the input and the captures so far.  The first success in
    backtracking order is the leftmost-first match that Go's
    [regexp] returns. *)
Fixpoint exec (r : regex) (k : string -> captures -> option R)
  (s : string) (caps : captures) : option R :=
  match r with
  | Lit l =>
      match strip_prefix l s with
      | Some rest => k rest caps
      | None => None
      end
  | Class p =>
      match s with
      | String c s' => if p c then k s' caps else None
      | EmptyString => None
      end
  | Star p => star p (fun rest => k rest caps) s
  | Plus p =>
      match s with
      | String c s' => if p c then star p (fun rest => k rest caps) s' else None
      | EmptyString => None
      end
  | Cat r1 r2 => exec r1 (exec r2 k) s caps
  | Alt r1 r2 =>
      match exec r1 k s caps with
      | Some res => Some res
      | None => exec r2 k s caps
      end
  | Group name r' =>
      exec r' (fun rest caps' => k rest ((name, consumed s rest) :: caps')) s caps
  end.
End Match.

(** [FindStringSubmatch]: the match at the earliest start position. *)
Fixpoint FindStringSubmatch (r : regex) (s : string) : option captures :=
  match exec r (fun _ caps => Some caps) s [] with
  | Some caps => Some caps
  | None =>
      match s with
      | String _ s' => FindStringSubmatch r s'
      | EmptyString => None
      end
  end.

Definition MatchString (r : regex) (s : string) : bool :=
  match FindStringSubmatch r s with Some _ => true | None => false end.

(** [matches[re.SubexpIndex(name)]]. *)
Fixpoint submatch (name : string) (caps : captures) : string :=
  match caps with
  | [] => EmptyString
  | (n, v) :: rest => if String.eqb n name then v else submatch name rest
  end.


(** Every byte of [s] is in the class [p]. *)
Fixpoint all_chars (p : ascii -> bool) (s : string) : bool :=
  match s with
  | EmptyString => true
  | String c s' => p c && all_chars p s'
  end.

(** [derives r w caps]: the text [w] is matched by [r], capturing
    [caps] (most recent first).  The declarative reading of a pattern,
    against which [exec] is proved sound. *)
Inductive derives : regex -> string -> captures -> Prop :=
| derives_Lit l : derives (Lit l) l []
| derives_Class p c :
    p c = true -> derives (Class p) (String c EmptyString) []
| derives_Star p w :
    all_chars p w = true -> derives (Star p) w []
| derives_Plus p c w :
    p c = true -> all_chars p w = true -> derives (Plus p) (String c w) []
| derives_Cat r1 r2 w1 w2 caps1 caps2 :
    derives r1 w1 caps1 -> derives r2 w2 caps2 ->
    derives (Cat r1 r2) (w1 +:+ w2) (caps2 ++ caps1)%list
| derives_Alt_l r1 r2 w caps :
    derives r1 w caps -> derives (Alt r1 r2) w caps
| derives_Alt_r r1 r2 w caps :
    derives r2 w caps -> derives (Alt r1 r2) w caps
| derives_Group name r w caps :
    derives r w caps -> derives (Group name r) w ((name, w) :: caps).

(** [strings.Contains(s, sub)] *)
Fixpoint Contains (s sub : string) : bool :=
  match strip_prefix sub s with
  | Some _ => true
  | None =>
      match s with
      | String _ s' => Contains s' sub
      | EmptyString => false
      end
  end.

(** [strings.Count] for a single byte. *)
Fixpoint count_char (c : ascii) (s : string) : nat :=
  match s with
  | EmptyString => 0
  | String c' s' => (if Ascii.eqb c' c then 1 else 0) + count_char c s'
  end.

End regexp.

(** ** The signature parser *)

Import regexp.

Definition in_range (lo hi : nat) (c : ascii) : bool :=
  Nat.leb lo (nat_of_ascii c) && Nat.leb (nat_of_ascii c) hi.

(** [[a-zA-Z]] *)
Definition is_letter (c : ascii) : bool := in_range 97 122 c || in_range 65 90 c.
(** [[0-9]] *)
Definition is_digit (c : ascii) : bool := in_range 48 57 c.
(** [\s] of RE2: tab, line feed, form feed, carriage return, space. *)
Definition is_re_space (c : ascii) : bool :=
  let n := nat_of_ascii c in
  Nat.eqb n 9 || Nat.eqb n 10 || Nat.eqb n 12 || Nat.eqb n 13 || Nat.eqb n 32.
(** [[a-zA-Z0-9\_]] *)
Definition is_ident (c : ascii) : bool :=
  is_letter c || is_digit c || Ascii.eqb c "_"%char.
(** [[a-zA-Z0-9\s\,]] *)
Definition is_param_char (c : ascii) : bool :=
  is_letter c || is_digit c || is_re_space c || Ascii.eqb c ","%char.

Definition cat (rs : list regex) : regex :=
  foldr Cat (Lit EmptyString) rs.

Definition FunctionPattern : string :=
  "function\s+(?<functionName>[a-zA-Z]{1}[a-zA-Z0-9\_]+)\s*\((?<input>[a-zA-Z0-9\s\,]*)\)\s+(?<mutability>pure|view)\s*returns\s+\((?<output>[a-zA-Z0-9\s\,]*)\)".

(** [regexp.MustCompile(FunctionPattern)], compiled by hand. *)
Definition FunctionRegex : regex :=
  cat [ Lit "function"; Plus is_re_space;
        Group "functionName" (Cat (Class is_letter) (Plus is_ident));
        Star is_re_space;
        Lit "("; Group "input" (Star is_param_char); Lit ")";
        Plus is_re_space;
        Group "mutability" (Alt (Lit "pure") (Lit "view"));
        Star is_re_space;
        Lit "returns"; Plus is_re_space;
        Lit "("; Group "output" (Star is_param_char); Lit ")" ].

(** Names of the capture groups ([FunctionRegex.SubexpIndex]). *)
Definition functionName_group : string := "functionName".
Definition mutability_group : string := "mutability".
Definition input_group : string := "input".
Definition output_group : string := "output".

(** *** The external ABI type system

    go-ethereum's [abi.NewType], [abi.Type.String] and
    [crypto.Keccak256] are collaborators outside the repository; the
    development is parametric in them.  [abi_NewType t] is [None] when
    [abi.NewType(t, t, nil)] returns an error. *)
Class ABITypes : Type := {
  abi_Type : Type;
  abi_NewType : string -> option abi_Type;
  abi_Type_String : abi_Type -> string;
  crypto_Keccak256 : string -> vec byte 32
}.

Section Parser.
Context `{ABITypes}.

(** [abi.Argument] *)
Record Argument : Type := {
  Name : string;
  Type_ : abi_Type;
  Indexed : bool
}.

Inductive FunctionType : Type := Constructor | Fallback | Receive | Function.

(** [abi.Method], without its cached display string. *)
Record Method : Type := {
  Method_Name : string;
  RawName : string;
  Method_Type : FunctionType;
  StateMutability : string;
  Constant : bool;
  Payable : bool;
  Inputs : list Argument;
  Outputs : list Argument;
  Sig : string;
  ID : list byte
}.

(** [strings.Join] *)
Fixpoint Join (elems : list string) (sep : string) : string :=
  match elems with
  | [] => EmptyString
  | [e] => e
  | e :: rest => e +:+ sep +:+ Join rest sep
  end.

(** [abi.NewMethod]: the signature is [rawName(type,type,...)] over the
    input types, the ID the first four bytes of its Keccak-256 hash;
    both are computed for functions only. *)
Definition NewMethod (name rawName : string) (funType : FunctionType)
    (mutability : string) (isConst isPayable : bool)
    (inputs outputs : list Argument) : Method :=
  let types := map (fun input => abi_Type_String (Type_ input)) inputs in
  let sig :=
    match funType with
    | Function => rawName +:+ "(" +:+ Join types "," +:+ ")"
    | _ => EmptyString
    end in
  let id :=
    match funType with
    | Function => take 4 (vec_to_list (crypto_Keccak256 sig))
    | _ => []
    end in
  {| Method_Name := name; RawName := rawName; Method_Type := funType;
     StateMutability := mutability; Constant := isConst; Payable := isPayable;
     Inputs := inputs; Outputs := outputs; Sig := sig; ID := id |}.

(** Errors of [parseParameters]: the two [fmt.Errorf] messages, each
    with the text it carries. *)
Inductive param_error : Type :=
| InvalidParameterFormat (param : string)
| InvalidParameterType (paramType : string).

(** Errors of [ParseFunction]: [ErrInvalidFunctionSignature], and the
    two wrappers around a [parseParameters] error. *)
Inductive parse_error : Type :=
| ErrInvalidFunctionSignature
| FailedInputParameters (e : param_error)
| FailedOutputParameters (e : param_error).

Definition paramNames : string := "abcdefghijklmnopqrstuvwxyz".

(** The slice expression [s[lo:hi]] on a string; [None] is the
    run-time panic for bounds out of range. *)
Definition slice (s : string) (lo hi : nat) : option string :=
  if Nat.leb lo hi && Nat.leb hi (String.length s)
  then Some (substring lo (hi - lo) s)
  else None.

(** The body of [for i, param := range params] in [parseParameters],
    from index [i] on, with the arguments appended so far. *)
Fixpoint parseParameters_loop (i : nat) (params : list string)
    (abiArgs : list Argument) : outcome param_error (list Argument) :=
  match params with
  | [] => Ok abiArgs
  | param :: rest =>
      let param := strings.TrimSpace param in
      if String.eqb param EmptyString then parseParameters_loop (S i) rest abiArgs
      else
        match strings.Fields param with
        | [] | _ :: _ :: _ :: _ => Err (InvalidParameterFormat param)
        | paramType :: named =>
            match slice paramNames i (i + 1) with
            | None => Panic
            | Some letter =>
                let paramName :=
                  match named with
                  | [given] => given
                  | _ => letter
                  end in
                match abi_NewType paramType with
                | None => Err (InvalidParameterType paramType)
                | Some abiType =>
                    parseParameters_loop (S i) rest
                      ((abiArgs ++ [{| Name := paramName; Type_ := abiType;
                                       Indexed := false |}])%list)
                end
            end
        end
  end.

Definition parseParameters (paramStr : string)
  : outcome param_error (list Argument) :=
  parseParameters_loop 0 (strings.Split_comma paramStr) [].

Definition ParseFunction (str : string) : outcome parse_error Method :=
  if negb (MatchString FunctionRegex str) then Err ErrInvalidFunctionSignature
  else
    match FindStringSubmatch FunctionRegex str with
    | None => Panic
    | Some matches =>
        let functionName := submatch functionName_group matches in
        let mutability := submatch mutability_group matches in
        let input := submatch input_group matches in
        let output := submatch output_group matches in
        match parseParameters input with
        | Panic => Panic
        | Err e => Err (FailedInputParameters e)
        | Ok parsedInputs =>
            match parseParameters output with
            | Panic => Panic
            | Err e => Err (FailedOutputParameters e)
            | Ok parsedOutputs =>
                Ok (NewMethod functionName functionName Function mutability
                      false false parsedInputs parsedOutputs)
            end
        end
    end.

End Parser.

(** ** resolver.go *)

(** *** The external codec and transport helpers

    go-ethereum's ABI codec ([Arguments.UnpackValues],
    [Arguments.PackValues]), [common.Address] with [common.HexToAddress],
    [hexutil.Decode] / [hexutil.Encode] and [json.Marshal] of the
    response struct.  [value] is the type of decoded ABI values (Go's
    [interface{}]) and [nil_value] its [nil].  A function that returns
    [(x, error)] in Go returns [None] here when the error is non-nil. *)
Class Codec `{ABITypes} : Type := {
  value : Type;
  nil_value : value;
  Address : Type;
  Address_eq_dec :: EqDecision Address;
  common_HexToAddress : string -> Address;
  hexutil_Decode : string -> option (list byte);
  hexutil_Encode : list byte -> string;
  abi_UnpackValues : list Argument -> list byte -> option (list value);
  abi_PackValues : list Argument -> list value -> option (list byte);
  json_Marshal : string -> option string
}.

(** [binary.BigEndian.Uint32]; [None] is the panic on fewer than four
    bytes. *)
Definition BigEndian_Uint32 (b : list byte) : option Z :=
  match b with
  | b0 :: b1 :: b2 :: b3 :: _ =>
      let u x := Z.of_N (Byte.to_N x) in
      Some (Z.lor (Z.lor (Z.lor (u b3) (Z.shiftl (u b2) 8))
                         (Z.shiftl (u b1) 16))
                  (Z.shiftl (u b0) 24))
  | _ => None
  end.

Section Resolver.
Context `{Codec}.

(** A non-nil Go [error], by its message. *)
Definition error : Type := string.

(** [Variable], declared with the parser ([Variable] is reserved in
    Rocq).  [ServeHTTP] leaves its [Type] field empty. *)
Record Variable_ : Type := {
  Var_Name : string;
  Var_Type : string;
  Value : value
}.

Record CCIPReadRequest : Type := {
  Request_Method : Method;
  Input : list Variable_
}.

(** [CCIPReadRequest.Var]: the value of the first variable called
    [name] and [true], or [nil] and [false]. *)
Fixpoint Var_loop (input : list Variable_) (name : string) : value * bool :=
  match input with
  | [] => (nil_value, false)
  | v :: rest =>
      if String.eqb (Var_Name v) name then (Value v, true)
      else Var_loop rest name
  end.

Definition Var (r : CCIPReadRequest) (name : string) : value * bool :=
  Var_loop (Input r) name.

(** Go functions returning [(x, error)]: the error is [None] for [nil]. *)
Definition CCIPReadHandler : Type := CCIPReadRequest -> list value * option error.
Definition SenderValidator : Type := Address -> option error.
Definition OutputEncoder : Type := list value -> list byte * option error.

Record registeredHandler : Type := {
  method : Method;
  handler : CCIPReadHandler
}.

(** A nil function field is [None].  [handlers] is the map made by
    [NewCCIPReadResolver]; a resolver with a nil map, which only a
    struct literal outside the constructor can produce, is not
    modelled. *)
Record CCIPReadResolver : Type := {
  handlers : gmap Z registeredHandler;
  senderValidator : option SenderValidator;
  outputEncoder : option OutputEncoder
}.

Definition Option : Type := CCIPReadResolver -> CCIPReadResolver.

(** The validator installed by [Gateways]: the loop over the listed
    addresses returns [nil] on a match, and the statement after the
    loop returns [nil] as well. *)
Fixpoint Gateways_validator (gateways : list Address) (sender : Address)
  : option error :=
  match gateways with
  | [] => None
  | gw :: rest =>
      if bool_decide (sender = gw) then None
      else Gateways_validator rest sender
  end.

Definition Gateways (gateways : list Address) : Option :=
  fun r => {| handlers := handlers r;
              senderValidator := Some (Gateways_validator gateways);
              outputEncoder := outputEncoder r |}.

Definition GatewayValidator (validator : SenderValidator) : Option :=
  fun r => {| handlers := handlers r;
              senderValidator := Some validator;
              outputEncoder := outputEncoder r |}.

Definition OutputEncoding (encoder : OutputEncoder) : Option :=
  fun r => {| handlers := handlers r;
              senderValidator := senderValidator r;
              outputEncoder := Some encoder |}.

Definition NewCCIPReadResolver (options : list Option) : CCIPReadResolver :=
  foldl (fun r option => option r)
    {| handlers := ∅; senderValidator := None; outputEncoder := None |}
    options.

(** [Handle]: [Ok r'] is a [nil] return with the resolver updated to
    [r']; [Err e] is the return of [e], the resolver untouched. *)
Definition Handle (r : CCIPReadResolver) (sig : string)
    (h : CCIPReadHandler) : outcome parse_error CCIPReadResolver :=
  match ParseFunction sig with
  | Panic => Panic
  | Err err => Err err
  | Ok m =>
      match BigEndian_Uint32 (ID m) with
      | None => Panic
      | Some byte4Sig =>
          Ok {| handlers := <[byte4Sig := {| method := m; handler := h |}]> (handlers r);
                senderValidator := senderValidator r;
                outputEncoder := outputEncoder r |}
      end
  end.

Record HttpCCIPReadRequest : Type := {
  Data : string;
  Sender : string
}.

(** What [io.ReadAll(req.Body)] followed by [json.Unmarshal] yields for
    a request: a read error, a body that is not the expected JSON, or
    the decoded envelope. *)
Inductive body : Type :=
| ReadError
| UnmarshalError
| Envelope (ccipReq : HttpCCIPReadRequest).

Record Request : Type := {
  http_Method : string;
  http_Body : body
}.

Definition MethodPost : string := "POST".
Definition StatusOK : Z := 200.
Definition StatusBadRequest : Z := 400.
Definition StatusUnauthorized : Z := 401.
Definition StatusNotFound : Z := 404.
Definition StatusMethodNotAllowed : Z := 405.
Definition StatusInternalServerError : Z := 500.

(** What is written to the [http.ResponseWriter]: [http.Error(rw, msg,
    code)], or the JSON response with status 200. *)
Inductive response : Type :=
| http_Error (msg : string) (code : Z)
| json_OK (code : Z) (respBytes : string).

Definition status (resp : response) : Z :=
  match resp with
  | http_Error _ code => code
  | json_OK code _ => code
  end.

(** The calls the pipeline makes to its collaborators, in order; they
    are recorded so that statements can say which calls a request leads
    to.  [CallOutputEncoder] stands for a call of the configured output
    encoder; no statement of [ServeHTTP] makes one. *)
Inductive call : Type :=
| CallSenderValidator (sender : Address)
| CallHexDecode (data : string)
| CallLookup (byte4Sig : Z)
| CallUnpackValues (data : list byte)
| CallHandler (byte4Sig : Z) (request : CCIPReadRequest)
| CallPackValues (outputs : list value)
| CallOutputEncoder (outputs : list value).

(** One statement of [ServeHTTP] goes on with a value, writes a
    response and returns, or panics. *)
Inductive step (A : Type) : Type :=
| Continue (a : A)
| Respond (resp : response)
| Crash.
Arguments Continue {A} a.
Arguments Respond {A} resp.
Arguments Crash {A}.

Definition M (A : Type) : Type := list call * step A.

Definition ret {A} (a : A) : M A := ([], Continue a).
Definition respond {A} (resp : response) : M A := ([], Respond resp).
Definition crash {A} : M A := ([], Crash).
Definition emit (c : call) : M unit := ([c], Continue tt).
Definition bind {A B} (k : A -> M B) (m : M A) : M B :=
  match m with
  | (t, Continue a) => let (t', s) := k a in ((t ++ t')%list, s)
  | (t, Respond resp) => (t, Respond resp)
  | (t, Crash) => (t, Crash)
  end.

#[local] Instance M_ret : MRet M := @ret.
#[local] Instance M_bind : MBind M := @bind.

(** The loop building [inputVars]: [registered.method.Inputs[i]] panics
    when there are more values than declared inputs. *)
Fixpoint bind_inputs (declared : list Argument) (i : nat) (inputs : list value)
    (inputVars : list Variable_) : option (list Variable_) :=
  match inputs with
  | [] => Some inputVars
  | input :: rest =>
      match declared !! i with
      | None => None
      | Some arg =>
          bind_inputs declared (S i) rest
            ((inputVars ++ [{| Var_Name := Name arg; Var_Type := EmptyString;
                               Value := input |}])%list)
      end
  end.

Definition ServeHTTP (r : CCIPReadResolver) (req : Request) : M unit :=
  (if negb (String.eqb (http_Method req) MethodPost)
   then respond (http_Error "method not allowed" StatusMethodNotAllowed)
   else ret tt) ;;
  ccipReq ←
    match http_Body req with
    | ReadError =>
        respond (http_Error "failed to read request body" StatusBadRequest)
    | UnmarshalError =>
        respond (http_Error "failed to parse request body" StatusBadRequest)
    | Envelope ccipReq => ret ccipReq
    end ;
  match senderValidator r with
  | Some validator =>
      if negb (String.eqb (Sender ccipReq) EmptyString) then
        let senderAddr := common_HexToAddress (Sender ccipReq) in
        emit (CallSenderValidator senderAddr) ;;
        match validator senderAddr with
        | Some _ => respond (http_Error "unauthorized sender" StatusUnauthorized)
        | None => ret tt
        end
      else ret tt
  | None => ret tt
  end ;;
  emit (CallHexDecode (Data ccipReq)) ;;
  data ←
    match hexutil_Decode (Data ccipReq) with
    | None => respond (http_Error "invalid data field" StatusBadRequest)
    | Some data => ret data
    end ;
  (if Nat.ltb (length data) 4
   then respond (http_Error "data field too short" StatusBadRequest)
   else ret tt) ;;
  byte4Sig ←
    match BigEndian_Uint32 (take 4 data) with
    | None => crash
    | Some byte4Sig => ret byte4Sig
    end ;
  emit (CallLookup byte4Sig) ;;
  registered ←
    match handlers r !! byte4Sig with
    | None => respond (http_Error "function not found" StatusNotFound)
    | Some registered => ret registered
    end ;
  emit (CallUnpackValues (drop 4 data)) ;;
  inputs ←
    match abi_UnpackValues (Inputs (method registered)) (drop 4 data) with
    | None =>
        respond (http_Error "failed to unpack input parameters" StatusBadRequest)
    | Some inputs => ret inputs
    end ;
  inputVars ←
    match bind_inputs (Inputs (method registered)) 0 inputs [] with
    | None => crash
    | Some inputVars => ret inputVars
    end ;
  let ccipReadReq :=
    {| Request_Method := method registered; Input := inputVars |} in
  emit (CallHandler byte4Sig ccipReadReq) ;;
  outputs ←
    match handler registered ccipReadReq with
    | (_, Some err) =>
        respond (http_Error ("handler error: " +:+ err) StatusInternalServerError)
    | (outputs, None) => ret outputs
    end ;
  emit (CallPackValues outputs) ;;
  outputData ←
    match abi_PackValues (Outputs (method registered)) outputs with
    | None =>
        respond (http_Error "failed to pack output parameters"
                   StatusInternalServerError)
    | Some outputData => ret outputData
    end ;
  match json_Marshal (hexutil_Encode outputData) with
  | None => respond (http_Error "failed to marshal response" StatusInternalServerError)
  | Some respBytes => respond (json_OK StatusOK respBytes)
  end.

End Resolver.

Arguments Continue {A} a.
Arguments Respond {A} resp.
Arguments Crash {A}.

(** ** A concrete instance of the external collaborators

    Used for the worked examples only; every general theorem below is
    proved for arbitrary instances.  The instance follows go-ethereum on
    the inputs the examples use: elementary type names, hex decoding and
    encoding, [common.HexToAddress], and the decoding and encoding of
    32-byte static words.  Keccak-256 itself is not re-implemented: the
    two selectors quoted in the repository's example README are
    tabulated, any other signature gets a checksum in its place. *)
Module Sample.

Definition byte_of_nat (n : nat) : byte := byte_of_ascii (ascii_of_nat n).
Definition nat_of_byte (b : byte) : nat := nat_of_ascii (ascii_of_byte b).

(** [fromHexChar] of encoding/hex. *)
Definition fromHexChar (c : ascii) : option nat :=
  let n := nat_of_ascii c in
  if in_range 48 57 c then Some (n - 48)
  else if in_range 97 102 c then Some (n - 87)
  else if in_range 65 70 c then Some (n - 55)
  else None.

(** [hex.DecodeString]: the bytes decoded before the first error, and
    whether the whole string decoded. *)
Fixpoint hex_DecodeString (s : string) : list byte * bool :=
  match s with
  | EmptyString => ([], true)
  | String _ EmptyString => ([], false)
  | String p (String q rest) =>
      match fromHexChar p, fromHexChar q with
      | Some a, Some b =>
          let (bs, ok) := hex_DecodeString rest in
          (byte_of_nat (16 * a + b) :: bs, ok)
      | _, _ => ([], false)
      end
  end.

Definition has0xPrefix (input : string) : option string :=
  match input with
  | String "0" (String "x" rest) | String "0" (String "X" rest) => Some rest
  | _ => None
  end.

(** [hexutil.Decode]: empty input, a missing [0x] prefix, an odd number
    of digits and a non-hex digit are errors. *)
Definition Decode (input : string) : option (list byte) :=
  match has0xPrefix input with
  | None => None
  | Some digits =>
      match hex_DecodeString digits with
      | (bs, true) => Some bs
      | (_, false) => None
      end
  end.

Definition hexdigit (n : nat) : ascii :=
  if Nat.ltb n 10 then ascii_of_nat (48 + n) else ascii_of_nat (87 + n).

Fixpoint hex_EncodeToString (bs : list byte) : string :=
  match bs with
  | [] => EmptyString
  | b :: rest =>
      let n := nat_of_byte b in
      String (hexdigit (n / 16)) (String (hexdigit (n mod 16)) (hex_EncodeToString rest))
  end.

(** [hexutil.Encode] *)
Definition Encode (bs : list byte) : string := "0x" +:+ hex_EncodeToString bs.

Definition zeros (n : nat) : list byte := replicate n x00.

(** [common.BytesToAddress]: the last 20 bytes, left-padded with zeros. *)
Definition BytesToAddress (b : list byte) : list byte :=
  let b := drop (length b - 20) b in
  (zeros (20 - length b) ++ b)%list.

(** [common.HexToAddress]: an optional [0x] prefix is dropped, an odd
    number of digits is padded with a leading zero digit. *)
Definition HexToAddress (s : string) : list byte :=
  let s := match has0xPrefix s with Some rest => rest | None => s end in
  let s := if Nat.odd (String.length s) then String "0" s else s in
  BytesToAddress (fst (hex_DecodeString s)).

#[export] Instance byte_eq_dec : EqDecision byte := Byte.byte_eq_dec.

Definition elementary : list string :=
  ["address"; "bool"; "string"; "bytes"; "bytes32"; "uint256"].

(** [abi.NewType] on a type name: the listed elementary types are
    accepted, anything else is an unsupported argument type. *)
Definition NewType (t : string) : option string :=
  if existsb (String.eqb t) elementary then Some t else None.

Fixpoint checksum (s : string) (h : Z) : Z :=
  match s with
  | EmptyString => h
  | String c s' => checksum s' ((h * 31 + Z.of_nat (nat_of_ascii c)) mod 2 ^ 32)
  end.

Definition word_bytes (h : Z) : byte * byte * byte * byte :=
  let at_shift k := byte_of_nat (Z.to_nat (Z.land (Z.shiftr h k) 255)) in
  (at_shift 24, at_shift 16, at_shift 8, at_shift 0)%Z.

(** The hash of a canonical signature: [addr(bytes32)] starts with
    [3b3b57de] and [text(bytes32,string)] with [59d1d43c]; only the
    first four bytes are ever read. *)
Definition Keccak256 (sig : string) : vec byte 32 :=
  let first4 :=
    if String.eqb sig "addr(bytes32)" then (x3b, x3b, x57, xde)
    else if String.eqb sig "text(bytes32,string)" then (x59, xd1, xd4, x3c)
    else word_bytes (checksum sig 0) in
  let '(b0, b1, b2, b3) := first4 in
  b0 ::: b1 ::: b2 ::: b3 ::: vreplicate 28 x00.

#[export] Instance abi_types : ABITypes := {|
  abi_Type := string;
  abi_NewType := NewType;
  abi_Type_String := fun t => t;
  crypto_Keccak256 := Keccak256
|}.

Definition is_word_type (t : string) : bool :=
  String.eqb t "bytes32" || String.eqb t "uint256".

(** Decoding of static arguments: argument [index] is read from the
    32-byte word at offset [32 * index]; a [bytes32] or [uint256] is
    the word, an [address] its last 20 bytes.  Dynamic types are not
    covered. *)
Fixpoint UnpackValues_from (index : nat) (args : list Argument) (data : list byte)
  : option (list (list byte)) :=
  match args with
  | [] => Some []
  | arg :: rest =>
      let word := take 32 (drop (32 * index) data) in
      if Nat.ltb (length word) 32 then None
      else
        let v := if is_word_type (Type_ arg) then Some word
                 else if String.eqb (Type_ arg) "address" then Some (drop 12 word)
                 else None in
        match v, UnpackValues_from (S index) rest data with
        | Some v, Some vs => Some (v :: vs)
        | _, _ => None
        end
  end.

(** Encoding of static arguments: the number of values must be the
    number of arguments, a word value has 32 bytes, an address 20. *)
Fixpoint PackValues (args : list Argument) (vals : list (list byte))
  : option (list byte) :=
  match args, vals with
  | [], [] => Some []
  | arg :: args', v :: vals' =>
      let word :=
        if is_word_type (Type_ arg) && Nat.eqb (length v) 32 then Some v
        else if String.eqb (Type_ arg) "address" && Nat.eqb (length v) 20
             then Some (zeros 12 ++ v)%list
        else None in
      match word, PackValues args' vals' with
      | Some w, Some ws => Some (w ++ ws)%list
      | _, _ => None
      end
  | _, _ => None
  end.

Definition quote : string := String "034" EmptyString.

(** [json.Marshal] of the response struct with its single [data]
    field. *)
Definition Marshal (data : string) : option string :=
  Some ("{" +:+ quote +:+ "data" +:+ quote +:+ ":" +:+ quote +:+ data +:+ quote +:+ "}").

#[export] Instance codec : Codec := {|
  value := list byte;
  nil_value := [];
  Address := list byte;
  Address_eq_dec := list_eq_dec;
  common_HexToAddress := HexToAddress;
  hexutil_Decode := Decode;
  hexutil_Encode := Encode;
  abi_UnpackValues := UnpackValues_from 0;
  abi_PackValues := PackValues;
  json_Marshal := Marshal
|}.

End Sample.

(** ** Worked inputs

    Signatures, handlers and requests used in the examples, over the
    concrete instance. *)
Module Worked.
Import Sample.

(** The two registrations of the repository's example, and a second
    signature with the canonical signature [addr(bytes32)]. *)
Definition addr_sig : string :=
  "function addr(bytes32 namehash) view returns (address)".
Definition addr_sig_renamed : string :=
  "function addr(bytes32 node) pure returns (bytes32)".

Definition argument (name type : string) : Argument :=
  {| Name := name; Type_ := type; Indexed := false |}.

Definition addr_method : Method :=
  NewMethod "addr" "addr" Function "view" false false
    [argument "namehash" "bytes32"] [argument "a" "address"].
Definition addr_method_renamed : Method :=
  NewMethod "addr" "addr" Function "pure" false false
    [argument "node" "bytes32"] [argument "a" "bytes32"].

(** [0x3b3b57de], the selector of [addr(bytes32)], as a [uint32]. *)
Definition addr_selector : Z := 993744862.

(** The handler of the example when no record is found: the zero
    address. *)
Definition zero_address_handler : CCIPReadHandler :=
  fun _ => ([zeros 20], None).

(** A handler returning its input [node]. *)
Definition echo_handler : CCIPReadHandler :=
  fun request => ([(Var request "node").1], None).

(** The call [addr(0x00..01)] of the example README. *)
Definition addr_call : string :=
  "0x3b3b57de0000000000000000000000000000000000000000000000000000000000000001".

Definition listed_gateway : string := "0x1111111111111111111111111111111111111111".
Definition unlisted_sender : string := "0x2222222222222222222222222222222222222222".

(** A validator that rejects every sender. *)
Definition reject_all : SenderValidator := fun _ => Some "sender not allowed".

(** An output encoder whose result is told apart from any ABI encoding. *)
Definition fixed_encoder : OutputEncoder := fun _ => ([xff], None).

(** Signatures without parameter names. *)
Definition foo_sig : string := "function foo(uint256) view returns (uint256)".
Definition mixed_sig : string :=
  "function mixed(uint256, address owner,, bool) view returns (uint256, bool)".
Definition mixed_method : Method :=
  NewMethod "mixed" "mixed" Function "view" false false
    [argument "a" "uint256"; argument "owner" "address"; argument "d" "bool"]
    [argument "a" "uint256"; argument "b" "bool"].

(** An explicit name that collides with a default one. *)
Definition pair_sig : string := "function pair(uint256 b, uint256) view returns (bool)".
Definition pair_method : Method :=
  NewMethod "pair" "pair" Function "view" false false
    [argument "b" "uint256"; argument "b" "uint256"] [argument "a" "bool"].
Definition word (last : byte) : value := (zeros 31 ++ [last])%list.
Definition two_words : list value := [word x01; word x02].
Definition three_words : list value := [word x01; word x02; word x03].

(** One more closing parenthesis than opening ones. *)
Definition unbalanced_sig : string :=
  "function addr(bytes32 node) view returns (address))".
Definition no_function_sig : string := "addr(bytes32 node) view returns (address)".
Definition bad_input_type_sig : string := "function foo(uint a) view returns (uint256)".
Definition bad_output_type_sig : string := "function foo(uint256 a) view returns (uint)".

(** Parameter lists with an entry at position 26. *)
Definition commas (n : nat) : string := string_of_list_ascii (replicate n ","%char).
Definition late_unnamed : string := commas 26 +:+ "uint256".
Definition late_named : string := commas 26 +:+ "uint256 z".
Definition malformed_then_late_unnamed : string :=
  "uint256 a b" +:+ commas 26 +:+ "uint256".
Definition late_sig : string :=
  "function late(" +:+ late_unnamed +:+ ") view returns (bool)".
Definition many_sig : string :=
  "function many(" +:+ Join (replicate 27 "uint256") "," +:+ ") view returns (bool)".

(** Bound inputs with a repeated name. *)
Definition repeated_request : CCIPReadRequest :=
  {| Request_Method := pair_method;
     Input := [ {| Var_Name := "x"; Var_Type := ""; Value := word x01 |};
                {| Var_Name := "y"; Var_Type := ""; Value := word x02 |};
                {| Var_Name := "x"; Var_Type := ""; Value := word x03 |} ] |}.

End Worked.

(** ** Vocabulary of the statements about the parser *)

Section ParserVocabulary.
Context `{ABITypes}.

(** Every byte of [s] is below [0x80]: the strings on which
    [strings.TrimSpace] and [strings.Fields] take white space to be the
    six bytes of [strings.isSpace]. *)
Definition ascii_only (s : string) : bool :=
  all_chars (fun c => Nat.ltb (nat_of_ascii c) 128) s.

(** The white-space separated tokens of one comma-separated entry, as
    the loop of [parseParameters] sees them. *)
Definition tokens (entry : string) : list string :=
  strings.Fields (strings.TrimSpace entry).

(** An entry the loop passes over without returning an error: a blank
    one, or one of one or two tokens whose first token is a type the
    external type system recognises. *)
Definition accepted (entry : string) : Prop :=
  strings.TrimSpace entry = EmptyString \/
  exists paramType named,
    tokens entry = paramType :: named /\ (length named <= 1)%nat /\
    is_Some (abi_NewType paramType).

(** The letter for position [i]: [paramNames[i : i+1]] where it is in
    range. *)
Definition default_name (i : nat) : string := substring i 1 paramNames.

(** The entries that are not blank, trimmed, with their zero-based
    position in the comma-separated list. *)
Definition nonblank_entries_from (i : nat) (params : list string)
  : list (nat * string) :=
  filter (fun p => snd p <> EmptyString)
    (imap (fun j entry => ((i + j)%nat, strings.TrimSpace entry)) params).

Definition nonblank_entries (paramStr : string) : list (nat * string) :=
  nonblank_entries_from 0 (strings.Split_comma paramStr).

(** The name an argument gets from the entry at position [i]. *)
Definition name_at (i : nat) (param : string) : string :=
  match strings.Fields param with
  | [_; given] => given
  | _ => default_name i
  end.

(** [args] are, in order, the non-blank entries of [paramStr], and an
    entry without a name is called by the letter of its own position in
    [paramStr]. *)
Definition named_by_position (paramStr : string) (args : list Argument) : Prop :=
  Forall2 (fun p arg => Name arg = name_at (fst p) (snd p))
    (nonblank_entries paramStr) args.

(** The first entry of [paramStr] that is not accepted sits at a
    position below 26, has one or two tokens, and its type token
    [paramType] is not recognised. *)
Definition first_rejected_type (paramStr paramType : string) : Prop :=
  exists i entry named,
    strings.Split_comma paramStr !! i = Some entry /\
    (i < 26)%nat /\
    Forall accepted (take i (strings.Split_comma paramStr)) /\
    tokens entry = paramType :: named /\ (length named <= 1)%nat /\
    abi_NewType paramType = None.

(** An entry that fits the parameter grammar: blank, or of one or two
    tokens. *)
Definition well_formed (entry : string) : Prop :=
  strings.TrimSpace entry = EmptyString \/
  (1 <= length (tokens entry) <= 2)%nat.

(** An entry whose type token the external type system rejects. *)
Definition unrecognized (entry : string) : Prop :=
  exists paramType named,
    tokens entry = paramType :: named /\ abi_NewType paramType = None.

End ParserVocabulary.

(** ** Vocabulary of the statements about the resolver *)

Section ResolverVocabulary.
Context `{Codec}.

(** The variable made of a declared argument and a decoded value. *)
Definition bound (arg : Argument) (input : value) : Variable_ :=
  {| Var_Name := Name arg; Var_Type := EmptyString; Value := input |}.

(** A [POST] request whose body is the envelope [ccipReq]. *)
Definition post (ccipReq : HttpCCIPReadRequest) : Request :=
  {| http_Method := MethodPost; http_Body := Envelope ccipReq |}.

(** The validator is configured, the sender is present, and the
    validator returns an error for it. *)
Definition sender_rejected (r : CCIPReadResolver) (ccipReq : HttpCCIPReadRequest)
  : bool :=
  match senderValidator r with
  | Some validator =>
      negb (String.eqb (Sender ccipReq) EmptyString) &&
      bool_decide (is_Some (validator (common_HexToAddress (Sender ccipReq))))
  | None => false
  end.

(** The [data] field does not decode, or decodes to fewer than four
    bytes. *)
Definition malformed_data (data : string) : bool :=
  match hexutil_Decode data with
  | None => true
  | Some bytes => Nat.ltb (length bytes) 4
  end.

(** Calls that come after hex decoding: the selector lookup and
    everything behind it. *)
Definition is_dispatch (c : call) : bool :=
  match c with
  | CallSenderValidator _ | CallHexDecode _ => false
  | _ => true
  end.

Definition is_output_encoder (c : call) : bool :=
  match c with
  | CallOutputEncoder _ => true
  | _ => false
  end.

Definition is_pack_values (c : call) : bool :=
  match c with
  | CallPackValues _ => true
  | _ => false
  end.

(** The status code of the response written, if any. *)
Definition status_of {A} (s : step A) : option Z :=
  match s with
  | Respond resp => Some (status resp)
  | _ => None
  end.

(** The call to the validator, when [ServeHTTP] makes it. *)
Definition validation_calls (r : CCIPReadResolver) (ccipReq : HttpCCIPReadRequest)
  : list call :=
  match senderValidator r with
  | Some _ =>
      if negb (String.eqb (Sender ccipReq) EmptyString)
      then [CallSenderValidator (common_HexToAddress (Sender ccipReq))]
      else []
  | None => []
  end.

(** The resolver with its handler table replaced. *)
Definition with_handlers (r : CCIPReadResolver)
    (table : gmap Z registeredHandler) : CCIPReadResolver :=
  {| handlers := table; senderValidator := senderValidator r;
     outputEncoder := outputEncoder r |}.

End ResolverVocabulary.

(** ** Vocabulary of the further statements *)

Section FurtherParserVocabulary.
Context `{ABITypes}.

(** The head of [s], if any, is outside the class [p]: a greedy run of
    [p] ends before [s]. *)
Definition stops (p : ascii -> bool) (s : string) : bool :=
  match s with
  | String c _ => negb (p c)
  | EmptyString => true
  end.

(** [args] are, in order, the non-blank entries of [paramStr]; the type
    of each is what the external type system makes of the entry's first
    token, and none is indexed. *)
Definition typed_by_first_token (paramStr : string) (args : list Argument) : Prop :=
  Forall2 (fun p arg =>
             exists paramType named,
               strings.Fields (snd p) = paramType :: named /\
               abi_NewType paramType = Some (Type_ arg) /\
               Indexed arg = false)
    (nonblank_entries paramStr) args.

(** A signature in the documented format, followed by any text:
    [function], white space, a name of a letter and at least one more
    identifier byte, optional white space, the parenthesised inputs,
    white space, the mutability, optional white space, [returns], white
    space, the parenthesised outputs. *)
Definition signature_text (ws1 name ws2 input ws3 mutability ws4 ws5 output after
                           : string) : string :=
  "function" +:+ ws1 +:+ name +:+ ws2 +:+ "(" +:+ input +:+ ")" +:+ ws3 +:+
  mutability +:+ ws4 +:+ "returns" +:+ ws5 +:+ "(" +:+ output +:+ ")" +:+ after.

(** White space of the pattern, at least one byte of it. *)
Definition spaces (ws : string) : bool := all_chars is_re_space ws.
Definition spaces1 (ws : string) : bool :=
  match ws with
  | String c ws' => is_re_space c && all_chars is_re_space ws'
  | EmptyString => false
  end.

(** A function name the pattern accepts. *)
Definition function_name (name : string) : bool :=
  match name with
  | String c (String c' w) => is_letter c && is_ident c' && all_chars is_ident w
  | _ => false
  end.

End FurtherParserVocabulary.

Section FurtherResolverVocabulary.
Context `{Codec}.

(** [m] with the calls [t] recorded before its own. *)
Definition prepend {A} (t : list call) (m : M A) : M A := ((t ++ m.1)%list, m.2).

(** The resolver with no sender validator. *)
Definition without_validator (r : CCIPReadResolver) : CCIPReadResolver :=
  {| handlers := handlers r; senderValidator := None;
     outputEncoder := outputEncoder r |}.

Definition is_handler_call (c : call) : bool :=
  match c with
  | CallHandler _ _ => true
  | _ => false
  end.

(** How many times a run called a handler. *)
Definition handler_calls (t : list call) : nat :=
  length (List.filter is_handler_call t).

(** The responses of the pipeline: an error with one of five status
    codes, or the JSON body with status 200. *)
Definition allowed_response (resp : response) : Prop :=
  match resp with
  | http_Error _ code =>
      In code [StatusBadRequest; StatusUnauthorized; StatusNotFound;
               StatusMethodNotAllowed; StatusInternalServerError]
  | json_OK code _ => code = StatusOK
  end.

(** A statement of the pipeline goes on, or answers as allowed. *)
Definition stage_ok {A} (s : step A) : Prop :=
  match s with
  | Respond resp => allowed_response resp
  | _ => True
  end.

(** The whole pipeline does not fall off its end: it answers as
    allowed, or panics. *)
Definition answered (s : step unit) : Prop :=
  match s with
  | Respond resp => allowed_response resp
  | Crash => True
  | Continue _ => False
  end.

(** The codec never decodes more values than the registered method
    declares inputs. *)
Definition arity_respected (r : CCIPReadResolver) : Prop :=
  forall byte4Sig registered data inputs,
    handlers r !! byte4Sig = Some registered ->
    abi_UnpackValues (Inputs (method registered)) data = Some inputs ->
    (length inputs <= length (Inputs (method registered)))%nat.

(** The options the package provides. *)
Inductive provided_option : Option -> Prop :=
| provided_Gateways gateways : provided_option (Gateways gateways)
| provided_GatewayValidator validator : provided_option (GatewayValidator validator)
| provided_OutputEncoding encoder : provided_option (OutputEncoding encoder).

End FurtherResolverVocabulary.

(** ** Further worked inputs *)

Module MoreWorked.
Import Sample Worked.

(** The second registration of the repository's example. *)
Definition text_sig : string :=
  "function text(bytes32 namehash, string key) view returns (string)".
Definition text_method : Method :=
  NewMethod "text" "text" Function "view" false false
    [argument "namehash" "bytes32"; argument "key" "string"]
    [argument "a" "string"].

(** [0x59d1d43c], the selector of [text(bytes32,string)], as a [uint32]. *)
Definition text_selector : Z := 1506923580.

(** A resolver with [addr(bytes32)] registered to the handler [h]. *)
Definition addr_resolver (h : CCIPReadHandler) : CCIPReadResolver :=
  with_handlers (NewCCIPReadResolver [])
    (<[addr_selector := {| method := addr_method; handler := h |}]> ∅).

(** A handler that fails, and one that returns no value where the
    method declares one. *)
Definition failing_handler : CCIPReadHandler := fun _ => ([], Some "no record").
Definition silent_handler : CCIPReadHandler := fun _ => ([], None).

(** Calls: of an unregistered selector, and of [addr] with a truncated
    argument. *)
Definition text_call : string := "0x59d1d43c".
Definition short_addr_call : string := "0x3b3b57de00".

Definition call_of (data : string) : HttpCCIPReadRequest :=
  {| Data := data; Sender := "" |}.

Definition addr_payload : list byte := word x01.
Definition addr_request : CCIPReadRequest :=
  {| Request_Method := addr_method;
     Input := [ {| Var_Name := "namehash"; Var_Type := ""; Value := word x01 |} ] |}.

(** A parameter list whose third entry has three tokens. *)
Definition malformed_third : string := "uint256 a, address,bool x y,string".

End MoreWorked.

(** * Properties *)

(** ** Strings *)

Section StringFacts.

Lemma append_cons (c : ascii) (a b : string) :
  String c a +:+ b = String c (a +:+ b).
Proof. reflexivity. Qed.

Lemma append_nil_l (s : string) : EmptyString +:+ s = s.
Proof. reflexivity. Qed.

Lemma append_nil_r (s : string) : s +:+ EmptyString = s.
Proof.
  induction s as [|c s IH]; [reflexivity|].
  now rewrite append_cons, IH.
Qed.

Lemma append_assoc (a b c : string) : (a +:+ b) +:+ c = a +:+ (b +:+ c).
Proof.
  induction a as [|x a IH]; [reflexivity|].
  now rewrite !append_cons, IH.
Qed.

Lemma length_append (a b : string) :
  String.length (a +:+ b) = (String.length a + String.length b)%nat.
Proof.
  induction a as [|x a IH]; [reflexivity|].
  rewrite append_cons. simpl. now rewrite IH.
Qed.

Lemma substring_prefix (w rest : string) :
  substring 0 (String.length w) (w +:+ rest) = w.
Proof.
  induction w as [|c w IH].
  - rewrite append_nil_l. destruct rest; reflexivity.
  - rewrite append_cons. simpl. now rewrite IH.
Qed.

Lemma consumed_append (w rest : string) : consumed (w +:+ rest) rest = w.
Proof.
  unfold consumed. rewrite length_append.
  replace (String.length w + String.length rest - String.length rest)%nat
    with (String.length w) by lia.
  apply substring_prefix.
Qed.

Lemma strip_prefix_Some (l s rest : string) :
  strip_prefix l s = Some rest -> s = l +:+ rest.
Proof.
  revert s; induction l as [|a l IH]; intros s; simpl.
  - now intros [= ->].
  - destruct s as [|b s]; [discriminate|].
    destruct (Ascii.eqb_spec a b) as [->|]; [|discriminate].
    intros Hs. now rewrite append_cons, <- (IH _ Hs).
Qed.

Lemma count_char_append (c : ascii) (a b : string) :
  count_char c (a +:+ b) = (count_char c a + count_char c b)%nat.
Proof.
  induction a as [|x a IH]; [reflexivity|].
  rewrite append_cons. simpl. rewrite IH. lia.
Qed.

End StringFacts.

(** ** Soundness of the backtracking matcher *)

Section RegexpFacts.

Lemma star_sound {R} (p : ascii -> bool) (k : string -> option R) (s : string) res :
  star p k s = Some res ->
  exists w rest, s = w +:+ rest /\ all_chars p w = true /\ k rest = Some res.
Proof.
  induction s as [|c s IH]; simpl.
  - intros Hk. exists EmptyString, EmptyString. auto.
  - destruct (p c) eqn:Hc.
    + destruct (star p k s) as [r|] eqn:Hs.
      * intros [= ->]. destruct (IH eq_refl) as (w & rest & -> & Hw & Hk).
        exists (String c w), rest. simpl. rewrite Hc, Hw. auto.
      * intros Hk. exists EmptyString, (String c s). auto.
    + intros Hk. exists EmptyString, (String c s). auto.
Qed.

(** Whatever [exec] hands to its continuation is the rest of the input
    after a text derived by the pattern, with the pattern's captures
    pushed on the captures so far. *)
Lemma exec_sound {R} (r : regex) :
  forall (k : string -> captures -> option R) s caps res,
    exec r k s caps = Some res ->
    exists w rest new,
      s = w +:+ rest /\ derives r w new /\ k rest (new ++ caps)%list = Some res.
Proof.
  induction r as [l|p|p|p|r1 IH1 r2 IH2|r1 IH1 r2 IH2|name r IH];
    intros k s caps res; simpl.
  - destruct (strip_prefix l s) as [rest|] eqn:Hl; [|discriminate].
    intros Hk. exists l, rest, []. split; [now apply strip_prefix_Some|].
    split; [constructor | exact Hk].
  - destruct s as [|c s]; [discriminate|].
    destruct (p c) eqn:Hc; [|discriminate].
    intros Hk. exists (String c EmptyString), s, []. simpl.
    split; [reflexivity|]. split; [now constructor | exact Hk].
  - intros Hs. apply star_sound in Hs as (w & rest & -> & Hw & Hk).
    exists w, rest, []. split; [reflexivity|]. split; [now constructor | exact Hk].
  - destruct s as [|c s]; [discriminate|].
    destruct (p c) eqn:Hc; [|discriminate].
    intros Hs. apply star_sound in Hs as (w & rest & -> & Hw & Hk).
    exists (String c w), rest, []. split; [reflexivity|].
    split; [now constructor | exact Hk].
  - intros H1. apply IH1 in H1 as (w1 & rest1 & new1 & -> & D1 & H2).
    apply IH2 in H2 as (w2 & rest2 & new2 & -> & D2 & Hk).
    exists (w1 +:+ w2), rest2, (new2 ++ new1)%list.
    split; [now rewrite append_assoc|].
    split; [now constructor | now rewrite <- app_assoc].
  - destruct (exec r1 k s caps) as [res1|] eqn:H1.
    + intros [= ->]. apply IH1 in H1 as (w & rest & new & -> & D & Hk).
      exists w, rest, new. split; [reflexivity|]. split; [now apply derives_Alt_l | exact Hk].
    + intros H2. apply IH2 in H2 as (w & rest & new & -> & D & Hk).
      exists w, rest, new. split; [reflexivity|]. split; [now apply derives_Alt_r | exact Hk].
  - intros Hr. apply IH in Hr as (w & rest & new & -> & D & Hk).
    rewrite consumed_append in Hk.
    exists w, rest, ((name, w) :: new). split; [reflexivity|].
    split; [now constructor | exact Hk].
Qed.

Lemma FindStringSubmatch_sound (r : regex) (s : string) (caps : captures) :
  FindStringSubmatch r s = Some caps ->
  exists before w after, s = before +:+ w +:+ after /\ derives r w caps.
Proof.
  induction s as [|c s IH]; simpl.
  - destruct (exec r _ EmptyString []) as [caps'|] eqn:He; [|discriminate].
    intros [= ->]. apply exec_sound in He as (w & rest & new & Hs & D & Hk).
    rewrite List.app_nil_r in Hk. injection Hk as <-.
    exists EmptyString, w, rest. auto.
  - destruct (exec r _ (String c s) []) as [caps'|] eqn:He.
    + intros [= ->]. apply exec_sound in He as (w & rest & new & Hs & D & Hk).
      rewrite List.app_nil_r in Hk. injection Hk as <-.
      exists EmptyString, w, rest. auto.
    + intros Hf. destruct (IH Hf) as (before & w & after & -> & D).
      exists (String c before), w, after. auto.
Qed.

End RegexpFacts.

(** ** The shape of a matched signature *)

Section FunctionRegexFacts.

Ltac invert_derives :=
  repeat match goal with
  | D : derives (Cat _ _) _ _ |- _ => inversion D; subst; clear D
  | D : derives (Lit _) _ _ |- _ => inversion D; subst; clear D
  | D : derives (Class _) _ _ |- _ => inversion D; subst; clear D
  | D : derives (Star _) _ _ |- _ => inversion D; subst; clear D
  | D : derives (Plus _) _ _ |- _ => inversion D; subst; clear D
  | D : derives (Group _ _) _ _ |- _ => inversion D; subst; clear D
  | D : derives (Alt _ _) _ _ |- _ => inversion D; subst; clear D
  end.

(** A string accepted by [FunctionRegex] contains, somewhere, the two
    keywords and the two parenthesised lists; the four captures are the
    name, the text between the first pair of parentheses, the mutability
    and the text between the second pair. *)
Lemma FunctionRegex_inv (str : string) (caps : captures) :
  FindStringSubmatch FunctionRegex str = Some caps ->
  exists before after ws1 name ws2 input ws3 mutability ws4 ws5 output,
    str = before +:+
          ("function" +:+ ws1 +:+ name +:+ ws2 +:+ "(" +:+ input +:+ ")" +:+ ws3 +:+
           mutability +:+ ws4 +:+ "returns" +:+ ws5 +:+ "(" +:+ output +:+ ")") +:+
          after /\
    caps = [(output_group, output); (mutability_group, mutability);
            (input_group, input); (functionName_group, name)] /\
    all_chars is_param_char input = true /\
    all_chars is_param_char output = true /\
    (mutability = "pure" \/ mutability = "view").
Proof.
  intros Hf. apply FindStringSubmatch_sound in Hf as (before & w & after & -> & D).
  unfold FunctionRegex, cat in D. simpl in D.
  invert_derives; exists before, after;
    match goal with
    | |- context [ "function" +:+ ?ws1 +:+ ?name +:+ ?ws2 +:+ "(" +:+ ?input +:+ ")" +:+
                   ?ws3 +:+ ?mut +:+ ?ws4 +:+ "returns" +:+ ?ws5 +:+ "(" +:+ ?output +:+ _ ] =>
        exists ws1, name, ws2, input, ws3, mut, ws4, ws5, output
    end; simpl; auto 10.
Qed.

(** The bytes of the two captured lists are ASCII. *)
Lemma is_param_char_ascii (c : ascii) :
  is_param_char c = true -> (nat_of_ascii c < 128)%nat.
Proof.
  destruct c as [[] [] [] [] [] [] [] []]; intros Hc;
    first [discriminate Hc | apply Nat.ltb_lt; reflexivity].
Qed.

Lemma param_chars_ascii_only (s : string) :
  all_chars is_param_char s = true -> ascii_only s = true.
Proof.
  unfold ascii_only. induction s as [|c s IH]; [reflexivity|]. simpl.
  intros Hs. apply andb_true_iff in Hs as [Hc Hs].
  apply andb_true_iff. split; [|exact (IH Hs)].
  apply Nat.ltb_lt. now apply is_param_char_ascii.
Qed.

Lemma submatch_captures (name input mutability output : string) :
  let caps := [(output_group, output); (mutability_group, mutability);
               (input_group, input); (functionName_group, name)] in
  submatch functionName_group caps = name /\
  submatch mutability_group caps = mutability /\
  submatch input_group caps = input /\
  submatch output_group caps = output.
Proof. repeat split. Qed.

(** The two lists [ParseFunction] passes to [parseParameters] are
    ASCII. *)
Lemma FunctionRegex_captures_ascii (str : string) (caps : captures) :
  FindStringSubmatch FunctionRegex str = Some caps ->
  ascii_only (submatch input_group caps) = true /\
  ascii_only (submatch output_group caps) = true.
Proof.
  intros Hf.
  apply FunctionRegex_inv in Hf
    as (before & after & ws1 & name & ws2 & input & ws3 & mut & ws4 & ws5 & output &
        _ & -> & Hin & Hout & _).
  split; now apply param_chars_ascii_only.
Qed.

End FunctionRegexFacts.

(** ** The parameter loop *)

Section ParameterLoop.
Context `{ABITypes}.

Lemma slice_paramNames_in_range (i : nat) :
  (i < 26)%nat -> slice paramNames i (i + 1) = Some (default_name i).
Proof.
  intros Hi. unfold slice, default_name.
  replace (i + 1 - i)%nat with 1%nat by lia.
  change (String.length paramNames) with 26%nat.
  destruct (Nat.leb_spec i (i + 1)); [|lia].
  destruct (Nat.leb_spec (i + 1) 26); [reflexivity | lia].
Qed.

Lemma slice_paramNames_out_of_range (i : nat) :
  (26 <= i)%nat -> slice paramNames i (i + 1) = None.
Proof.
  intros Hi. unfold slice.
  change (String.length paramNames) with 26%nat.
  destruct (Nat.leb_spec (i + 1) 26); [lia|].
  now rewrite andb_false_r.
Qed.

Lemma Fields_nonempty_nonblank (param t : string) (named : list string) :
  strings.Fields param = t :: named -> String.eqb param EmptyString = false.
Proof. destruct param; [discriminate | reflexivity]. Qed.

(** One iteration on a blank entry. *)
Lemma loop_blank i entry rest abiArgs :
  strings.TrimSpace entry = EmptyString ->
  parseParameters_loop i (entry :: rest) abiArgs =
  parseParameters_loop (S i) rest abiArgs.
Proof. intros Hb. simpl. now rewrite Hb. Qed.

(** One iteration on an entry of one or two tokens. *)
Lemma loop_entry i entry rest abiArgs paramType named :
  tokens entry = paramType :: named -> (length named <= 1)%nat ->
  parseParameters_loop i (entry :: rest) abiArgs =
  match slice paramNames i (i + 1) with
  | None => Panic
  | Some letter =>
      match abi_NewType paramType with
      | None => Err (InvalidParameterType paramType)
      | Some abiType =>
          parseParameters_loop (S i) rest
            (abiArgs ++ [{| Name := match named with [given] => given | _ => letter end;
                            Type_ := abiType; Indexed := false |}])%list
      end
  end.
Proof.
  unfold tokens. intros Ht Hn. simpl.
  rewrite (Fields_nonempty_nonblank _ _ _ Ht), Ht.
  destruct named as [|given [|extra named]]; simpl in Hn; [reflexivity | reflexivity | lia].
Qed.

(** An entry of one or two tokens at a position from 26 on, reached
    without an earlier error, makes the loop panic. *)
Lemma loop_panics params :
  forall i abiArgs k entry paramType named,
    params !! k = Some entry ->
    (26 <= i + k)%nat ->
    Forall accepted (take k params) ->
    tokens entry = paramType :: named -> (length named <= 1)%nat ->
    parseParameters_loop i params abiArgs = Panic.
Proof.
  induction params as [|e params IH]; intros i abiArgs k entry paramType named Hk Hi Hacc Ht Hn.
  - destruct k; discriminate.
  - destruct k as [|k].
    + injection Hk as ->.
      rewrite (loop_entry _ _ _ _ _ _ Ht Hn), slice_paramNames_out_of_range by lia.
      reflexivity.
    + simpl in Hk. rewrite firstn_cons in Hacc.
      apply Forall_cons in Hacc as [He Hacc].
      destruct He as [Hb | (t & nm & Ht' & Hn' & [abiType Hty])].
      * rewrite (loop_blank _ _ _ _ Hb).
        apply (IH (S i) abiArgs k entry paramType named); auto. lia.
      * rewrite (loop_entry _ _ _ _ _ _ Ht' Hn').
        destruct (slice paramNames i (i + 1)); [|reflexivity].
        rewrite Hty.
        apply (IH (S i) _ k entry paramType named); auto. lia.
Qed.

(** An entry with an unrecognised type token at a position below 26,
    reached without an earlier error, ends the loop with the type error
    that carries the token. *)
Lemma loop_type_error params :
  forall i abiArgs k entry paramType named,
    params !! k = Some entry ->
    (i + k < 26)%nat ->
    Forall accepted (take k params) ->
    tokens entry = paramType :: named -> (length named <= 1)%nat ->
    abi_NewType paramType = None ->
    parseParameters_loop i params abiArgs = Err (InvalidParameterType paramType).
Proof.
  induction params as [|e params IH];
    intros i abiArgs k entry paramType named Hk Hi Hacc Ht Hn Hty.
  - destruct k; discriminate.
  - destruct k as [|k].
    + injection Hk as ->.
      rewrite (loop_entry _ _ _ _ _ _ Ht Hn), slice_paramNames_in_range by lia.
      now rewrite Hty.
    + simpl in Hk. rewrite firstn_cons in Hacc.
      apply Forall_cons in Hacc as [He Hacc].
      destruct He as [Hb | (t & nm & Ht' & Hn' & [abiType Hty'])].
      * rewrite (loop_blank _ _ _ _ Hb).
        apply (IH (S i) abiArgs k entry paramType named); auto. lia.
      * rewrite (loop_entry _ _ _ _ _ _ Ht' Hn'), slice_paramNames_in_range by lia.
        rewrite Hty'.
        apply (IH (S i) _ k entry paramType named); auto. lia.
Qed.

(** Among well-formed entries of which one is unrecognised, there is a
    first entry that is not accepted, and it is an unrecognised one. *)
Lemma first_rejected_in params :
  Forall well_formed params ->
  Exists unrecognized params ->
  exists i entry paramType named,
    params !! i = Some entry /\
    Forall accepted (take i params) /\
    tokens entry = paramType :: named /\ (length named <= 1)%nat /\
    abi_NewType paramType = None.
Proof.
  induction params as [|e params IH]; intros Hwf Hex.
  - inversion Hex.
  - apply Forall_cons in Hwf as [He Hwf].
    assert (Hnext : accepted e -> Exists unrecognized params ->
              exists i entry paramType named,
                (e :: params) !! i = Some entry /\
                Forall accepted (take i (e :: params)) /\
                tokens entry = paramType :: named /\ (length named <= 1)%nat /\
                abi_NewType paramType = None).
    { intros Hacc Hrest.
      destruct (IH Hwf Hrest) as (i & entry & t & named & Hi & Hpre & Ht & Hn & Hty).
      exists (S i), entry, t, named. simpl. repeat split; auto. }
    destruct He as [Hblank | Hlen].
    + apply Hnext; [now left|].
      apply Exists_cons in Hex as [(t & named & Ht & _) | Hrest]; [|exact Hrest].
      unfold tokens in Ht. rewrite Hblank in Ht. discriminate.
    + destruct (tokens e) as [|t named] eqn:Ht; simpl in Hlen; [lia|].
      destruct (abi_NewType t) as [abiType|] eqn:Hty.
      * apply Hnext.
        { right. exists t, named. repeat split; eauto. lia. }
        apply Exists_cons in Hex as [(t' & named' & Ht' & Hty') | Hrest];
          [|exact Hrest].
        rewrite Ht in Ht'. injection Ht' as <- <-. congruence.
      * exists 0%nat, e, t, named. simpl. repeat split; auto. lia.
Qed.

Lemma first_rejected_type_exists paramStr :
  (length (strings.Split_comma paramStr) <= 26)%nat ->
  Forall well_formed (strings.Split_comma paramStr) ->
  Exists unrecognized (strings.Split_comma paramStr) ->
  exists paramType, first_rejected_type paramStr paramType.
Proof.
  intros Hlen Hwf Hex.
  destruct (first_rejected_in _ Hwf Hex)
    as (i & entry & t & named & Hi & Hpre & Ht & Hn & Hty).
  exists t, i, entry, named. repeat split; auto.
  apply lookup_lt_Some in Hi. lia.
Qed.

Lemma parseParameters_first_rejected_type paramStr paramType :
  first_rejected_type paramStr paramType ->
  parseParameters paramStr = Err (InvalidParameterType paramType).
Proof.
  intros (i & entry & named & Hi & Hlt & Hacc & Ht & Hn & Hty).
  unfold parseParameters.
  apply (loop_type_error _ 0 [] i entry paramType named); auto.
Qed.

End ParameterLoop.

(** ** Names by position *)

Section NamesByPosition.
Context `{ABITypes}.

Lemma nonblank_entries_from_cons i entry params :
  nonblank_entries_from i (entry :: params) =
  ((if decide (strings.TrimSpace entry <> EmptyString)
    then [(i, strings.TrimSpace entry)] else []) ++
   nonblank_entries_from (S i) params)%list.
Proof.
  unfold nonblank_entries_from. rewrite imap_cons, filter_cons. simpl.
  rewrite Nat.add_0_r.
  assert (Hext : imap ((fun j e => ((i + j)%nat, strings.TrimSpace e)) ∘ S) params =
                 imap (fun j e => ((S i + j)%nat, strings.TrimSpace e)) params).
  { apply imap_ext. intros j e _. simpl. f_equal. lia. }
  rewrite Hext. destruct (decide _); reflexivity.
Qed.

Lemma slice_Some_default_name i letter :
  slice paramNames i (i + 1) = Some letter -> letter = default_name i.
Proof.
  unfold slice, default_name. destruct (_ && _); [|discriminate].
  intros [= <-]. now replace (i + 1 - i)%nat with 1%nat by lia.
Qed.

(** The arguments the loop appends are the non-blank entries in order,
    each named by its own token or by the letter of its position. *)
Lemma loop_named_by_position params :
  forall i abiArgs args,
    parseParameters_loop i params abiArgs = Ok args ->
    exists new,
      args = (abiArgs ++ new)%list /\
      Forall2 (fun p arg => Name arg = name_at (fst p) (snd p))
        (nonblank_entries_from i params) new.
Proof.
  induction params as [|entry params IH]; intros i abiArgs args.
  - simpl. intros [= <-]. exists []. rewrite List.app_nil_r. split; [reflexivity | constructor].
  - rewrite nonblank_entries_from_cons. simpl.
    destruct (String.eqb_spec (strings.TrimSpace entry) EmptyString) as [Hb|Hb].
    + intros Hloop. apply IH in Hloop as (new & -> & Hnew).
      exists new. split; [reflexivity|].
      destruct (decide _); [congruence | exact Hnew].
    + destruct (strings.Fields (strings.TrimSpace entry))
        as [|paramType [|given [|extra more]]] eqn:Hf; try discriminate.
      * destruct (slice paramNames i (i + 1)) as [letter|] eqn:Hs; [|discriminate].
        destruct (abi_NewType paramType) as [abiType|]; [|discriminate].
        intros Hloop. apply IH in Hloop as (new & -> & Hnew).
        eexists (_ :: new). rewrite <- app_assoc. split; [reflexivity|].
        destruct (decide _); [|contradiction]. constructor; [|exact Hnew].
        simpl. unfold name_at. rewrite Hf. now apply slice_Some_default_name.
      * destruct (slice paramNames i (i + 1)) as [letter|] eqn:Hs; [|discriminate].
        destruct (abi_NewType paramType) as [abiType|]; [|discriminate].
        intros Hloop. apply IH in Hloop as (new & -> & Hnew).
        eexists (_ :: new). rewrite <- app_assoc. split; [reflexivity|].
        destruct (decide _); [|contradiction]. constructor; [|exact Hnew].
        simpl. unfold name_at. now rewrite Hf.
Qed.

Lemma parseParameters_named_by_position paramStr args :
  parseParameters paramStr = Ok args -> named_by_position paramStr args.
Proof.
  unfold parseParameters, named_by_position, nonblank_entries.
  intros Hp. apply loop_named_by_position in Hp as (new & -> & Hnew). exact Hnew.
Qed.

End NamesByPosition.

(** ** ParseFunction, case by case *)

Section ParseFunctionFacts.
Context `{ABITypes}.

Lemma ParseFunction_no_match str :
  FindStringSubmatch FunctionRegex str = None ->
  ParseFunction str = Err ErrInvalidFunctionSignature.
Proof. intros Hf. unfold ParseFunction, MatchString. now rewrite Hf. Qed.

Lemma ParseFunction_match str caps :
  FindStringSubmatch FunctionRegex str = Some caps ->
  ParseFunction str =
  match parseParameters (submatch input_group caps) with
  | Panic => Panic
  | Err e => Err (FailedInputParameters e)
  | Ok parsedInputs =>
      match parseParameters (submatch output_group caps) with
      | Panic => Panic
      | Err e => Err (FailedOutputParameters e)
      | Ok parsedOutputs =>
          Ok (NewMethod (submatch functionName_group caps)
                (submatch functionName_group caps) Function
                (submatch mutability_group caps) false false
                parsedInputs parsedOutputs)
      end
  end.
Proof. intros Hf. unfold ParseFunction, MatchString. now rewrite Hf. Qed.

(** A successful parse comes from a match, both lists parsed. *)
Lemma ParseFunction_Ok_inv str m :
  ParseFunction str = Ok m ->
  exists caps parsedInputs parsedOutputs,
    FindStringSubmatch FunctionRegex str = Some caps /\
    parseParameters (submatch input_group caps) = Ok parsedInputs /\
    parseParameters (submatch output_group caps) = Ok parsedOutputs /\
    m = NewMethod (submatch functionName_group caps)
          (submatch functionName_group caps) Function
          (submatch mutability_group caps) false false parsedInputs parsedOutputs.
Proof.
  destruct (FindStringSubmatch FunctionRegex str) as [caps|] eqn:Hf.
  - rewrite (ParseFunction_match _ _ Hf).
    destruct (parseParameters (submatch input_group caps)) as [ins| |] eqn:Hi;
      try discriminate.
    destruct (parseParameters (submatch output_group caps)) as [outs| |] eqn:Ho;
      try discriminate.
    intros [= <-]. exists caps, ins, outs. auto.
  - rewrite (ParseFunction_no_match _ Hf). discriminate.
Qed.

Lemma ParseFunction_ID_length str m :
  ParseFunction str = Ok m -> length (ID m) = 4%nat.
Proof.
  intros Hp. apply ParseFunction_Ok_inv in Hp as (caps & ins & outs & _ & _ & _ & ->).
  simpl. rewrite length_take, length_vec_to_list. reflexivity.
Qed.

End ParseFunctionFacts.

(** ** Substrings *)

Section ContainsFacts.

Lemma strip_prefix_append (sub rest : string) :
  strip_prefix sub (sub +:+ rest) = Some rest.
Proof.
  induction sub as [|c sub IH]; [now destruct rest|].
  rewrite append_cons. simpl. now rewrite Ascii.eqb_refl.
Qed.

Lemma Contains_here (sub rest : string) : Contains (sub +:+ rest) sub = true.
Proof.
  destruct (sub +:+ rest) eqn:Hs; simpl; rewrite <- Hs, strip_prefix_append;
    reflexivity.
Qed.

Lemma Contains_append_r (sub a b : string) :
  Contains b sub = true -> Contains (a +:+ b) sub = true.
Proof.
  intros Hb. induction a as [|c a IH]; [exact Hb|].
  rewrite append_cons. simpl. rewrite IH. now destruct (strip_prefix _ _).
Qed.

Lemma Contains_append_l (sub a b : string) :
  Contains a sub = true -> Contains (a +:+ b) sub = true.
Proof.
  induction a as [|c a IH]; intros Ha; simpl in Ha.
  - destruct (strip_prefix sub EmptyString) as [rest|] eqn:Hp; [|discriminate].
    apply strip_prefix_Some in Hp.
    destruct sub; [|discriminate]. now destruct b.
  - destruct (strip_prefix sub (String c a)) as [rest|] eqn:Hp.
    + apply strip_prefix_Some in Hp. rewrite Hp, append_assoc.
      apply Contains_here.
    + rewrite append_cons. simpl. rewrite (IH Ha).
      destruct (strip_prefix sub (String c (a +:+ b))); reflexivity.
Qed.

(** A matched string has both keywords, at least two opening and at
    least two closing parentheses. *)
Lemma FunctionRegex_keywords (str : string) (caps : captures) :
  FindStringSubmatch FunctionRegex str = Some caps ->
  Contains str "function" = true /\ Contains str "returns" = true /\
  (2 <= count_char "(" str)%nat /\ (2 <= count_char ")" str)%nat.
Proof.
  intros Hf.
  apply FunctionRegex_inv in Hf
    as (before & after & ws1 & name & ws2 & input & ws3 & mut & ws4 & ws5 & output &
        -> & _).
  repeat split.
  - apply Contains_append_r, Contains_append_l, Contains_here.
  - apply Contains_append_r, Contains_append_l.
    do 10 apply Contains_append_r. apply Contains_here.
  - rewrite !count_char_append. simpl. lia.
  - rewrite !count_char_append. simpl. lia.
Qed.

End ContainsFacts.

(** ** Claims about the signature parser *)

Section ParserClaims.
Context `{Codec}.

(** C4 (as amended).  In a successfully parsed signature the inputs
    are the non-blank entries of the text between the first pair of
    parentheses and the outputs those of the text between the second
    pair, in order; a parameter written without a name is called by the
    letter of its zero-based position in the comma-separated list it
    belongs to.  Each of the two lists is numbered from zero: the
    letters start again at [a] for the outputs. *)
Theorem default_names_by_position_in_own_list (str : string) (m : Method) :
  ParseFunction str = Ok m ->
  exists caps,
    FindStringSubmatch FunctionRegex str = Some caps /\
    named_by_position (submatch input_group caps) (Inputs m) /\
    named_by_position (submatch output_group caps) (Outputs m).
Proof.
  intros Hp. apply ParseFunction_Ok_inv in Hp as (caps & ins & outs & Hf & Hi & Ho & ->).
  exists caps. split; [exact Hf|]. simpl.
  split; now apply parseParameters_named_by_position.
Qed.

(** C6 (as amended).  A string without the [function] keyword, without
    the [returns] keyword, or with fewer than two opening or two closing
    parentheses is rejected with [ErrInvalidFunctionSignature].  When
    the pattern matches somewhere in the string, and the input list has
    at most 26 entries, all well-formed, one of them with a type token
    the external type system does not recognise, parsing fails with the
    invalid-parameter-type error that carries the type token of the
    first entry that is not accepted; likewise for the output list when
    the input list has parsed. *)
Theorem ParseFunction_rejection (str : string) :
  (Contains str "function" = false \/ Contains str "returns" = false \/
   (count_char "(" str < 2)%nat \/ (count_char ")" str < 2)%nat ->
   ParseFunction str = Err ErrInvalidFunctionSignature) /\
  (forall caps,
     FindStringSubmatch FunctionRegex str = Some caps ->
     let input := submatch input_group caps in
     let output := submatch output_group caps in
     ((length (strings.Split_comma input) <= 26)%nat ->
      Forall well_formed (strings.Split_comma input) ->
      Exists unrecognized (strings.Split_comma input) ->
      exists paramType,
        first_rejected_type input paramType /\
        ParseFunction str =
        Err (FailedInputParameters (InvalidParameterType paramType))) /\
     (forall parsedInputs,
        parseParameters input = Ok parsedInputs ->
        (length (strings.Split_comma output) <= 26)%nat ->
        Forall well_formed (strings.Split_comma output) ->
        Exists unrecognized (strings.Split_comma output) ->
        exists paramType,
          first_rejected_type output paramType /\
          ParseFunction str =
          Err (FailedOutputParameters (InvalidParameterType paramType)))).
Proof.
  split.
  - intros Hmissing.
    destruct (FindStringSubmatch FunctionRegex str) as [caps|] eqn:Hf;
      [|now apply ParseFunction_no_match].
    apply FunctionRegex_keywords in Hf as (Hfun & Hret & Hopen & Hclose).
    destruct Hmissing as [Hm | [Hm | [Hm | Hm]]]; [congruence | congruence | lia | lia].
  - intros caps Hf input output. rewrite (ParseFunction_match _ _ Hf). split.
    + intros Hlen Hwf Hex.
      destruct (first_rejected_type_exists _ Hlen Hwf Hex) as [paramType Hfirst].
      exists paramType. split; [exact Hfirst|].
      fold input. now rewrite (parseParameters_first_rejected_type _ _ Hfirst).
    + intros ins Hins Hlen Hwf Hex.
      destruct (first_rejected_type_exists _ Hlen Hwf Hex) as [paramType Hfirst].
      exists paramType. split; [exact Hfirst|].
      fold input output.
      now rewrite Hins, (parseParameters_first_rejected_type _ _ Hfirst).
Qed.

Lemma ParseFunction_panics_on_inputs str caps :
  FindStringSubmatch FunctionRegex str = Some caps ->
  parseParameters (submatch input_group caps) = Panic ->
  ParseFunction str = Panic.
Proof. intros Hf Hp. now rewrite (ParseFunction_match _ _ Hf), Hp. Qed.

(** C10 (as amended).  If the entry at a position [i >= 26] of a
    parameter list has one or two tokens (it is unnamed, or named) and
    no entry before it is rejected, then [parseParameters] panics on
    the slice [paramNames[i : i+1]] when the list is ASCII, as every
    list is that the signature pattern captures; a signature whose
    input list is such a list makes [ParseFunction], and with it the
    registration by [Handle], panic. *)
Theorem parseParameters_panics_from_position_26
    (paramStr : string) (i : nat) (entry paramType : string) (named : list string) :
  strings.Split_comma paramStr !! i = Some entry ->
  (26 <= i)%nat ->
  Forall accepted (take i (strings.Split_comma paramStr)) ->
  tokens entry = paramType :: named -> (length named <= 1)%nat ->
  (ascii_only paramStr = true -> parseParameters paramStr = Panic) /\
  (forall sig caps r h,
     FindStringSubmatch FunctionRegex sig = Some caps ->
     submatch input_group caps = paramStr ->
     ParseFunction sig = Panic /\ Handle r sig h = Panic).
Proof.
  intros Hi Hge Hacc Ht Hn.
  assert (Hpanic : parseParameters paramStr = Panic).
  { unfold parseParameters.
    apply (loop_panics _ 0 [] i entry paramType named); auto. }
  split; [intros _; exact Hpanic|].
  intros sig caps r h Hf Hin.
  assert (Hparse : ParseFunction sig = Panic).
  { apply (ParseFunction_panics_on_inputs _ _ Hf). now rewrite Hin. }
  split; [exact Hparse|]. unfold Handle. now rewrite Hparse.
Qed.

End ParserClaims.

(** ** Claims about binding and lookup *)

Section BinderClaims.
Context `{Codec}.

(** C8.  Looking a name up among the bound inputs returns the value of
    the first variable of that name in declaration order, also when
    later variables share the name; when no variable has the name the
    lookup returns [nil] and [false], an ordinary result. *)
Theorem Var_first_match (r : CCIPReadRequest) (name : string) :
  (In name (map Var_Name (Input r)) ->
   exists before v after,
     Input r = (before ++ v :: after)%list /\
     ~ In name (map Var_Name before) /\
     Var_Name v = name /\
     Var r name = (Value v, true)) /\
  (~ In name (map Var_Name (Input r)) -> Var r name = (nil_value, false)).
Proof.
  unfold Var. induction (Input r) as [|v input [IHin IHout]]; simpl.
  - split; [contradiction | reflexivity].
  - destruct (String.eqb_spec (Var_Name v) name) as [Heq|Hne]; split.
    + intros _. exists [], v, input. auto.
    + intros Hn. contradict Hn. now left.
    + intros [Hv|Hin]; [contradiction|].
      destruct (IHin Hin) as (before & v' & after & -> & Hb & Hv' & Hr).
      exists (v :: before), v', after. repeat split; auto.
      simpl. intros [?|?]; contradiction.
    + intros Hn. apply IHout. tauto.
Qed.

Lemma bind_inputs_zip declared :
  forall inputs i inputVars,
    (i + length inputs <= length declared)%nat ->
    bind_inputs declared i inputs inputVars =
    Some (inputVars ++ zip_with bound (drop i declared) inputs)%list.
Proof.
  induction inputs as [|input inputs IH]; intros i inputVars Hlen; simpl in *.
  - destruct (drop i declared); simpl; now rewrite List.app_nil_r.
  - destruct (declared !! i) as [arg|] eqn:Hi.
    + rewrite IH by lia. rewrite (drop_S _ _ _ Hi). simpl.
      now rewrite <- app_assoc.
    + apply lookup_ge_None in Hi. lia.
Qed.

Lemma Var_loop_zip declared :
  forall inputs,
    length inputs = length declared ->
    NoDup (map Name declared) ->
    map (fun arg => Var_loop (zip_with bound declared inputs) (Name arg)) declared =
    map (fun input => (input, true)) inputs.
Proof.
  induction declared as [|arg declared IH]; intros [|input inputs] Hlen Hnd;
    try discriminate; [reflexivity|].
  simpl in *. rewrite String.eqb_refl. f_equal.
  apply NoDup_cons in Hnd as [Hfresh Hnd].
  rewrite <- (IH inputs) by (auto; lia).
  apply map_ext_in. intros arg' Hin.
  destruct (String.eqb_spec (Name arg) (Name arg')) as [Heq|Hne]; [|reflexivity].
  exfalso. apply Hfresh. rewrite Heq. apply list_elem_of_In, in_map, Hin.
Qed.

(** C7 (as amended).  For a descriptor whose input names are pairwise
    distinct and a list of as many values as it has inputs, binding
    succeeds, and looking every input up by its declared name returns
    the values in order. *)
Theorem round_trip_bind_distinct_names (d : Method) (v : list value) :
  length v = length (Inputs d) ->
  NoDup (map Name (Inputs d)) ->
  exists inputVars,
    bind_inputs (Inputs d) 0 v [] = Some inputVars /\
    map (fun arg => Var {| Request_Method := d; Input := inputVars |} (Name arg))
        (Inputs d) =
    map (fun input => (input, true)) v.
Proof.
  intros Hlen Hnd. exists (zip_with bound (Inputs d) v). split.
  - rewrite bind_inputs_zip by (simpl; lia). reflexivity.
  - unfold Var. simpl. now apply Var_loop_zip.
Qed.

End BinderClaims.

(** ** Claims about the selector table *)

Section TableClaims.
Context `{Codec}.

Lemma BigEndian_Uint32_Some (b : list byte) :
  length b = 4%nat -> is_Some (BigEndian_Uint32 b).
Proof.
  destruct b as [|b0 [|b1 [|b2 [|b3 [|b4 b]]]]]; try discriminate.
  intros _. eexists. reflexivity.
Qed.

Lemma Handle_inserts r sig h m byte4Sig :
  ParseFunction sig = Ok m ->
  BigEndian_Uint32 (ID m) = Some byte4Sig ->
  Handle r sig h =
  Ok (with_handlers r (<[byte4Sig := {| method := m; handler := h |}]> (handlers r))).
Proof. intros Hp Hk. unfold Handle. now rewrite Hp, Hk. Qed.

(** C2 (as amended).  When two signatures parse to descriptors with
    the same 4-byte ID, both registrations return [nil]: the first one
    stores its descriptor and handler under the selector, the second
    one replaces them with its own, and no other entry of the table
    changes.  The last registration for a selector wins. *)
Theorem Handle_last_registration_wins
    (r : CCIPReadResolver) (sig1 sig2 : string) (h1 h2 : CCIPReadHandler)
    (m1 m2 : Method) :
  ParseFunction sig1 = Ok m1 ->
  ParseFunction sig2 = Ok m2 ->
  ID m1 = ID m2 ->
  exists byte4Sig r1 r2,
    BigEndian_Uint32 (ID m1) = Some byte4Sig /\
    Handle r sig1 h1 = Ok r1 /\
    Handle r1 sig2 h2 = Ok r2 /\
    handlers r1 !! byte4Sig = Some {| method := m1; handler := h1 |} /\
    handlers r2 !! byte4Sig = Some {| method := m2; handler := h2 |} /\
    (forall k, k <> byte4Sig -> handlers r2 !! k = handlers r !! k).
Proof.
  intros Hp1 Hp2 Hid.
  destruct (BigEndian_Uint32_Some (ID m1)) as [byte4Sig Hk];
    [now apply (ParseFunction_ID_length sig1)|].
  exists byte4Sig. eexists. eexists.
  split; [exact Hk|].
  split; [exact (Handle_inserts r sig1 h1 m1 byte4Sig Hp1 Hk)|].
  split; [apply (Handle_inserts _ sig2 h2 m2 byte4Sig Hp2); now rewrite <- Hid|].
  simpl. rewrite !lookup_insert_eq. repeat split.
  intros k Hne. now rewrite !lookup_insert_ne.
Qed.

End TableClaims.

(** ** Claims about the request pipeline *)

Section PipelineClaims.
Context `{Codec}.

Ltac run_pipeline :=
  unfold ServeHTTP, post, mbind, M_bind, bind, ret, respond, emit, crash; simpl.

Lemma ServeHTTP_rejected r ccipReq :
  sender_rejected r ccipReq = true ->
  ServeHTTP r (post ccipReq) =
  ([CallSenderValidator (common_HexToAddress (Sender ccipReq))],
   Respond (http_Error "unauthorized sender" StatusUnauthorized)).
Proof.
  unfold sender_rejected. run_pipeline.
  destruct (senderValidator r) as [validator|]; [|discriminate].
  destruct (negb _); [|discriminate]. simpl.
  intros Hrej. apply bool_decide_eq_true in Hrej as [err Herr].
  now rewrite Herr.
Qed.

Lemma ServeHTTP_malformed r ccipReq :
  sender_rejected r ccipReq = false ->
  malformed_data (Data ccipReq) = true ->
  exists msg,
    ServeHTTP r (post ccipReq) =
    ((validation_calls r ccipReq ++ [CallHexDecode (Data ccipReq)])%list,
     Respond (http_Error msg StatusBadRequest)).
Proof.
  unfold sender_rejected, malformed_data, validation_calls. run_pipeline.
  intros Hpass Hbad.
  destruct (hexutil_Decode (Data ccipReq)) as [data|]; [rewrite Hbad|];
    (destruct (senderValidator r) as [validator|];
     [destruct (negb (String.eqb (Sender ccipReq) EmptyString)); simpl in *;
      [apply bool_decide_eq_false in Hpass;
       destruct (validator _) as [err|]; [contradict Hpass; eauto|]|]|]);
    simpl; eexists; reflexivity.
Qed.

Lemma ServeHTTP_not_post r req :
  String.eqb (http_Method req) MethodPost = false ->
  ServeHTTP r req =
  ([], Respond (http_Error "method not allowed" StatusMethodNotAllowed)).
Proof. intros Hm. run_pipeline. now rewrite Hm. Qed.

Lemma request_is_post req ccipReq :
  String.eqb (http_Method req) MethodPost = true ->
  http_Body req = Envelope ccipReq ->
  req = post ccipReq.
Proof.
  destruct req as [m b]. simpl. intros Hm ->.
  apply String.eqb_eq in Hm. now subst.
Qed.

Lemma validation_calls_not_dispatch r ccipReq :
  Forall (fun c => is_dispatch c = false) (validation_calls r ccipReq).
Proof.
  unfold validation_calls.
  destruct (senderValidator r); [destruct (negb _)|]; repeat constructor.
Qed.

(** C5 (as amended).  [ServeHTTP] validates the sender before it
    decodes the [data] field.  When a validator is configured, the
    sender is present and the validator rejects it, the response is
    401 and [hexutil.Decode] is not called, whatever [data] holds.  When
    the sender is not rejected and [data] does not decode or decodes to
    fewer than four bytes, the response is 400, right after the call to
    [hexutil.Decode]. *)
Theorem sender_validation_precedes_hex_decoding
    (r : CCIPReadResolver) (ccipReq : HttpCCIPReadRequest) :
  (sender_rejected r ccipReq = true ->
   ServeHTTP r (post ccipReq) =
   ([CallSenderValidator (common_HexToAddress (Sender ccipReq))],
    Respond (http_Error "unauthorized sender" StatusUnauthorized))) /\
  (sender_rejected r ccipReq = false ->
   malformed_data (Data ccipReq) = true ->
   exists msg,
     ServeHTTP r (post ccipReq) =
     ((validation_calls r ccipReq ++ [CallHexDecode (Data ccipReq)])%list,
      Respond (http_Error msg StatusBadRequest))).
Proof. split; [apply ServeHTTP_rejected | apply ServeHTTP_malformed]. Qed.

(** C9 (as amended).  For a request whose [data] field does not decode
    or decodes to fewer than four bytes, the pipeline makes no call
    after hex decoding: no selector lookup, no input decoding, no
    handler.  The response is 400 when the request is a [POST] whose
    sender is not rejected by the validator. *)
Theorem malformed_data_is_never_dispatched
    (r : CCIPReadResolver) (req : Request) (ccipReq : HttpCCIPReadRequest) :
  http_Body req = Envelope ccipReq ->
  malformed_data (Data ccipReq) = true ->
  Forall (fun c => is_dispatch c = false) (ServeHTTP r req).1 /\
  (http_Method req = MethodPost ->
   sender_rejected r ccipReq = false ->
   exists msg, (ServeHTTP r req).2 = Respond (http_Error msg StatusBadRequest)).
Proof.
  intros Hbody Hbad.
  destruct (String.eqb (http_Method req) MethodPost) eqn:Hm.
  - rewrite (request_is_post _ _ Hm Hbody).
    destruct (sender_rejected r ccipReq) eqn:Hrej.
    + rewrite (ServeHTTP_rejected _ _ Hrej). simpl.
      split; [repeat constructor | discriminate].
    + destruct (ServeHTTP_malformed _ _ Hrej Hbad) as [msg ->]. simpl. split.
      * apply Forall_app. split; [apply validation_calls_not_dispatch|].
        repeat constructor.
      * intros _ _. now exists msg.
  - rewrite (ServeHTTP_not_post _ _ Hm). simpl. split; [constructor|].
    intros Hpost. rewrite Hpost in Hm. discriminate.
Qed.

(** Installing an output encoder changes nothing in what [ServeHTTP]
    does: the field [outputEncoder] is never read. *)
Lemma OutputEncoding_has_no_effect r encoder req :
  ServeHTTP (OutputEncoding encoder r) req = ServeHTTP r req.
Proof. reflexivity. Qed.

Lemma bind_trace (P : call -> Prop) {A B} (m : M A) (k : A -> M B) :
  Forall P m.1 -> (forall a, Forall P (k a).1) -> Forall P (bind k m).1.
Proof.
  destruct m as [t [a|resp|]]; simpl; auto.
  intros Ht Hk. specialize (Hk a). destruct (k a) as [t' s]. simpl in *.
  apply Forall_app. auto.
Qed.

Ltac trace_leaf :=
  repeat case_match; simpl; repeat (constructor; try reflexivity).

(** No run of the pipeline calls the output encoder. *)
Lemma output_encoder_never_called r req :
  Forall (fun c => is_output_encoder c = false) (ServeHTTP r req).1.
Proof.
  unfold ServeHTTP, mbind, M_bind.
  repeat (apply bind_trace; [try (trace_leaf; fail) | intros]);
    trace_leaf.
Qed.

(** The validator built by [Gateways] returns [nil] for every sender,
    listed or not. *)
Lemma Gateways_validator_returns_nil gateways sender :
  Gateways_validator gateways sender = None.
Proof.
  induction gateways as [|gw gateways IH]; simpl; [reflexivity|].
  now destruct (bool_decide _).
Qed.

Lemma Gateways_rejects_nobody gateways r ccipReq :
  sender_rejected (Gateways gateways r) ccipReq = false.
Proof.
  unfold sender_rejected. simpl. rewrite Gateways_validator_returns_nil.
  rewrite bool_decide_eq_false_2; [apply andb_false_r|].
  intros [err Herr]. discriminate.
Qed.

End PipelineClaims.

(** ** Worked examples *)

Module Examples.
Import Sample Worked.

Example ParseFunction_addr : ParseFunction addr_sig = Ok addr_method.
Proof. reflexivity. Qed.

Example ParseFunction_addr_renamed :
  ParseFunction addr_sig_renamed = Ok addr_method_renamed.
Proof. reflexivity. Qed.

Example addr_selector_value :
  BigEndian_Uint32 (ID addr_method) = Some addr_selector.
Proof. reflexivity. Qed.

Example default_name_letters :
  map default_name [0; 1; 2; 25]%nat = ["a"; "b"; "c"; "z"].
Proof. reflexivity. Qed.

(** A one-letter function name does not match [FunctionPattern], whose
    name part asks for a letter followed by at least one more byte. *)
Example one_letter_name_rejected :
  ParseFunction "function f(uint256 a) view returns (uint256)" =
  Err ErrInvalidFunctionSignature.
Proof. reflexivity. Qed.

(** *** C1 *)

(** C1, at the failing input.  With an output encoder configured, the
    call [addr(0x00..01)] reaches the output-encode step; the pipeline
    calls [PackValues], does not call the encoder, and answers with the
    ABI encoding of the handler's value (32 zero bytes), not with the
    encoder's bytes. *)
Theorem configured_output_encoder_is_not_called :
  exists r trace respBytes,
    Handle (NewCCIPReadResolver [OutputEncoding fixed_encoder])
      addr_sig zero_address_handler = Ok r /\
    is_Some (outputEncoder r) /\
    ServeHTTP r (post {| Data := addr_call; Sender := "" |}) =
    (trace, Respond (json_OK StatusOK respBytes)) /\
    json_Marshal (hexutil_Encode (zeros 32)) = Some respBytes /\
    json_Marshal (hexutil_Encode (fixed_encoder [zeros 20]).1) <> Some respBytes /\
    existsb is_pack_values trace = true /\
    existsb is_output_encoder trace = false.
Proof.
  eexists. eexists. eexists.
  split; [reflexivity|].
  split; [eexists; reflexivity|].
  split; [reflexivity|].
  split; [reflexivity|].
  split; [discriminate|].
  split; reflexivity.
Qed.

(** *** C3 *)

(** C3, at the failing input.  With [Gateways] listing one address, a
    request from another, non-empty sender is not answered with 401: it
    is served with status 200. *)
Theorem Gateways_admits_unlisted_sender :
  exists r trace respBytes,
    Handle (NewCCIPReadResolver [Gateways [HexToAddress listed_gateway]])
      addr_sig zero_address_handler = Ok r /\
    HexToAddress unlisted_sender <> HexToAddress listed_gateway /\
    ServeHTTP r (post {| Data := addr_call; Sender := unlisted_sender |}) =
    (trace, Respond (json_OK StatusOK respBytes)).
Proof.
  eexists. eexists. eexists.
  split; [reflexivity|].
  split; [discriminate|].
  reflexivity.
Qed.

(** *** C2 *)

(** C2, counterexample.  [addr_sig] and [addr_sig_renamed] have the
    canonical signature [addr(bytes32)], hence one selector.  Registering
    the second after the first returns [nil], and the table then holds
    the second descriptor and handler under the selector. *)
Lemma second_registration_replaces_first :
  exists r1 r2,
    Handle (NewCCIPReadResolver []) addr_sig zero_address_handler = Ok r1 /\
    Handle r1 addr_sig_renamed echo_handler = Ok r2 /\
    handlers r1 !! addr_selector =
      Some {| method := addr_method; handler := zero_address_handler |} /\
    handlers r2 !! addr_selector =
      Some {| method := addr_method_renamed; handler := echo_handler |} /\
    StateMutability addr_method <> StateMutability addr_method_renamed.
Proof.
  eexists. eexists.
  split; [reflexivity|].
  split; [reflexivity|].
  split; [reflexivity|].
  split; [reflexivity | discriminate].
Qed.

Lemma Handle_last_registration_wins_witness :
  ParseFunction addr_sig = Ok addr_method /\
  ParseFunction addr_sig_renamed = Ok addr_method_renamed /\
  ID addr_method = ID addr_method_renamed /\
  exists byte4Sig r1 r2,
    BigEndian_Uint32 (ID addr_method) = Some byte4Sig /\
    Handle (NewCCIPReadResolver []) addr_sig zero_address_handler = Ok r1 /\
    Handle r1 addr_sig_renamed echo_handler = Ok r2 /\
    handlers r1 !! byte4Sig =
      Some {| method := addr_method; handler := zero_address_handler |} /\
    handlers r2 !! byte4Sig =
      Some {| method := addr_method_renamed; handler := echo_handler |} /\
    (forall k, k <> byte4Sig ->
       handlers r2 !! k = handlers (NewCCIPReadResolver []) !! k).
Proof.
  split; [reflexivity|]. split; [reflexivity|]. split; [reflexivity|].
  apply (Handle_last_registration_wins (NewCCIPReadResolver [])
           addr_sig addr_sig_renamed zero_address_handler echo_handler
           addr_method addr_method_renamed); reflexivity.
Defined.

(** *** C4 *)

(** C4, counterexample.  The only output of [foo_sig] is the second
    parameter of the signature as a whole, yet it is called [a], not
    [b]: the letters start again for the outputs. *)
Lemma default_names_restart_for_outputs :
  exists m,
    ParseFunction foo_sig = Ok m /\
    map Name (Inputs m) = ["a"] /\
    map Name (Outputs m) = ["a"] /\
    map Name (Outputs m) <> ["b"].
Proof.
  eexists. split; [reflexivity|].
  split; [reflexivity|]. split; [reflexivity | discriminate].
Qed.

(** In [mixed_sig] the blank third entry counts as a position: the
    unnamed [bool] after it is called [d]. *)
Example ParseFunction_mixed : ParseFunction mixed_sig = Ok mixed_method.
Proof. reflexivity. Qed.

Lemma default_names_by_position_in_own_list_witness :
  ParseFunction mixed_sig = Ok mixed_method /\
  exists caps,
    FindStringSubmatch FunctionRegex mixed_sig = Some caps /\
    named_by_position (submatch input_group caps) (Inputs mixed_method) /\
    named_by_position (submatch output_group caps) (Outputs mixed_method).
Proof.
  split; [reflexivity|].
  apply (default_names_by_position_in_own_list mixed_sig mixed_method).
  reflexivity.
Defined.

(** *** C6 *)

(** C6, counterexample.  [unbalanced_sig] has two opening and three
    closing parentheses and parses: the pattern is looked for anywhere
    in the string, and the text after the match is ignored. *)
Lemma unbalanced_parentheses_accepted :
  count_char "(" unbalanced_sig = 2%nat /\
  count_char ")" unbalanced_sig = 3%nat /\
  exists m, ParseFunction unbalanced_sig = Ok m.
Proof.
  split; [reflexivity|]. split; [reflexivity|].
  eexists. reflexivity.
Qed.

Lemma ParseFunction_rejection_witness :
  Contains no_function_sig "function" = false /\
  ParseFunction no_function_sig = Err ErrInvalidFunctionSignature /\
  (exists paramType,
     first_rejected_type "uint a" paramType /\
     ParseFunction bad_input_type_sig =
     Err (FailedInputParameters (InvalidParameterType paramType))) /\
  (exists paramType,
     first_rejected_type "uint" paramType /\
     ParseFunction bad_output_type_sig =
     Err (FailedOutputParameters (InvalidParameterType paramType))).
Proof.
  split; [reflexivity|].
  split; [apply (proj1 (ParseFunction_rejection no_function_sig)); left; reflexivity|].
  split.
  - destruct (proj2 (ParseFunction_rejection bad_input_type_sig)
                [(output_group, "uint256"); (mutability_group, "view");
                 (input_group, "uint a"); (functionName_group, "foo")] eq_refl)
      as [Hinput _].
    apply Hinput.
    + simpl. lia.
    + constructor; [right; simpl; lia | constructor].
    + constructor. exists "uint", ["a"]. split; reflexivity.
  - destruct (proj2 (ParseFunction_rejection bad_output_type_sig)
                [(output_group, "uint"); (mutability_group, "view");
                 (input_group, "uint256 a"); (functionName_group, "foo")] eq_refl)
      as [_ Houtput].
    eapply Houtput.
    + reflexivity.
    + simpl. lia.
    + constructor; [right; simpl; lia | constructor].
    + constructor. exists "uint", []. split; reflexivity.
Defined.

Example bad_type_errors :
  ParseFunction bad_input_type_sig =
    Err (FailedInputParameters (InvalidParameterType "uint")) /\
  ParseFunction bad_output_type_sig =
    Err (FailedOutputParameters (InvalidParameterType "uint")).
Proof. split; reflexivity. Qed.

(** *** C7 *)

(** C7, counterexample.  In [pair_sig] the explicit name [b] of the
    first input collides with the default name of the second.  Two
    values are bound, and looking both inputs up by name returns the
    first value twice. *)
Lemma duplicate_names_break_round_trip :
  exists inputVars,
    ParseFunction pair_sig = Ok pair_method /\
    length two_words = length (Inputs pair_method) /\
    bind_inputs (Inputs pair_method) 0 two_words [] = Some inputVars /\
    map (fun arg => Var {| Request_Method := pair_method; Input := inputVars |}
                      (Name arg)) (Inputs pair_method) =
    [(word x01, true); (word x01, true)] /\
    word x01 <> word x02.
Proof.
  eexists. split; [reflexivity|]. split; [reflexivity|].
  split; [reflexivity|]. split; [reflexivity | discriminate].
Qed.

Lemma round_trip_bind_distinct_names_witness :
  length three_words = length (Inputs mixed_method) /\
  NoDup (map Name (Inputs mixed_method)) /\
  exists inputVars,
    bind_inputs (Inputs mixed_method) 0 three_words [] =
      Some inputVars /\
    map (fun arg => Var {| Request_Method := mixed_method; Input := inputVars |}
                      (Name arg)) (Inputs mixed_method) =
    map (fun input => (input, true)) three_words.
Proof.
  assert (Hnd : NoDup (map Name (Inputs mixed_method))).
  { exact (bool_decide_unpack (NoDup (map Name (Inputs mixed_method))) I). }
  split; [reflexivity|]. split; [exact Hnd|].
  apply (round_trip_bind_distinct_names mixed_method three_words);
    [reflexivity | exact Hnd].
Defined.

(** *** C8 *)

Lemma Var_first_match_witness :
  (exists before v after,
     Input repeated_request = (before ++ v :: after)%list /\
     ~ In "x" (map Var_Name before) /\
     Var_Name v = "x" /\
     Var repeated_request "x" = (Value v, true)) /\
  Var repeated_request "x" = (word x01, true) /\
  Var repeated_request "z" = (nil_value, false).
Proof.
  split; [|split].
  - apply (proj1 (Var_first_match repeated_request "x")). simpl. auto.
  - reflexivity.
  - apply (proj2 (Var_first_match repeated_request "z")). simpl.
    intros [Hx | [Hy | [Hx | []]]]; discriminate.
Defined.

(** *** C5 *)

(** C5, counterexample.  With a validator that rejects the sender, a
    request whose [data] decodes to a single byte is answered with 401,
    not 400, and [hexutil.Decode] is not called. *)
Lemma rejected_sender_with_short_data_gets_401 :
  malformed_data "0x12" = true /\
  ServeHTTP (NewCCIPReadResolver [GatewayValidator reject_all])
    (post {| Data := "0x12"; Sender := unlisted_sender |}) =
  ([CallSenderValidator (HexToAddress unlisted_sender)],
   Respond (http_Error "unauthorized sender" StatusUnauthorized)).
Proof. split; reflexivity. Qed.

Lemma sender_validation_precedes_hex_decoding_witness :
  (sender_rejected (NewCCIPReadResolver [GatewayValidator reject_all])
     {| Data := "0x12"; Sender := unlisted_sender |} = true /\
   ServeHTTP (NewCCIPReadResolver [GatewayValidator reject_all])
     (post {| Data := "0x12"; Sender := unlisted_sender |}) =
   ([CallSenderValidator (HexToAddress unlisted_sender)],
    Respond (http_Error "unauthorized sender" StatusUnauthorized))) /\
  (sender_rejected (NewCCIPReadResolver [GatewayValidator reject_all])
     {| Data := "0x12"; Sender := "" |} = false /\
   malformed_data "0x12" = true /\
   exists msg,
     ServeHTTP (NewCCIPReadResolver [GatewayValidator reject_all])
       (post {| Data := "0x12"; Sender := "" |}) =
     ((validation_calls (NewCCIPReadResolver [GatewayValidator reject_all])
         {| Data := "0x12"; Sender := "" |} ++ [CallHexDecode "0x12"])%list,
      Respond (http_Error msg StatusBadRequest))).
Proof.
  split.
  - split; [reflexivity|].
    apply (proj1 (sender_validation_precedes_hex_decoding
                    (NewCCIPReadResolver [GatewayValidator reject_all])
                    {| Data := "0x12"; Sender := unlisted_sender |})).
    reflexivity.
  - split; [reflexivity|]. split; [reflexivity|].
    apply (proj2 (sender_validation_precedes_hex_decoding
                    (NewCCIPReadResolver [GatewayValidator reject_all])
                    {| Data := "0x12"; Sender := "" |})); reflexivity.
Defined.

(** *** C9 *)

(** C9, counterexample.  A [data] field that is not hex, sent by a
    sender the validator rejects, is answered with status 401, not
    400. *)
Lemma rejected_sender_with_non_hex_data_gets_401 :
  hexutil_Decode "zz" = None /\
  status_of (ServeHTTP (NewCCIPReadResolver [GatewayValidator reject_all])
               (post {| Data := "zz"; Sender := listed_gateway |})).2 =
  Some StatusUnauthorized.
Proof. split; reflexivity. Qed.

Lemma malformed_data_is_never_dispatched_witness :
  http_Body (post {| Data := "zz"; Sender := "" |}) =
    Envelope {| Data := "zz"; Sender := "" |} /\
  malformed_data "zz" = true /\
  Forall (fun c => is_dispatch c = false)
    (ServeHTTP (NewCCIPReadResolver []) (post {| Data := "zz"; Sender := "" |})).1 /\
  (http_Method (post {| Data := "zz"; Sender := "" |}) = MethodPost ->
   sender_rejected (NewCCIPReadResolver []) {| Data := "zz"; Sender := "" |} = false ->
   exists msg,
     (ServeHTTP (NewCCIPReadResolver []) (post {| Data := "zz"; Sender := "" |})).2 =
     Respond (http_Error msg StatusBadRequest)).
Proof.
  split; [reflexivity|]. split; [reflexivity|].
  apply (malformed_data_is_never_dispatched (NewCCIPReadResolver [])
           (post {| Data := "zz"; Sender := "" |}) {| Data := "zz"; Sender := "" |});
    reflexivity.
Defined.

(** *** C10 *)

(** C10, counterexample.  The entry at position 26 is unnamed, but the
    entry at position 0 has three tokens: [parseParameters] returns the
    format error and does not panic. *)
Lemma late_unnamed_entry_after_malformed_entry :
  strings.Split_comma malformed_then_late_unnamed !! 26%nat = Some "uint256" /\
  parseParameters malformed_then_late_unnamed =
  Err (InvalidParameterFormat "uint256 a b").
Proof. split; reflexivity. Qed.

Lemma parseParameters_panics_from_position_26_witness :
  strings.Split_comma late_unnamed !! 26%nat = Some "uint256" /\
  ascii_only late_unnamed = true /\
  parseParameters late_unnamed = Panic /\
  ParseFunction late_sig = Panic /\
  Handle (NewCCIPReadResolver []) late_sig zero_address_handler = Panic.
Proof.
  assert (Hacc : Forall accepted (take 26 (strings.Split_comma late_unnamed))).
  { replace (take 26 (strings.Split_comma late_unnamed))
      with (replicate 26 EmptyString) by reflexivity.
    apply Forall_replicate. left. reflexivity. }
  assert (Hentry : strings.Split_comma late_unnamed !! 26%nat = Some "uint256")
    by reflexivity.
  assert (Htokens : tokens "uint256" = ["uint256"]) by reflexivity.
  destruct (parseParameters_panics_from_position_26 late_unnamed 26 "uint256"
              "uint256" [] Hentry (le_n 26) Hacc Htokens (le_0_n 1))
    as [Hpanic Hsig].
  split; [exact Hentry|]. split; [reflexivity|].
  split; [exact (Hpanic eq_refl)|].
  assert (Hmatch : exists caps,
             FindStringSubmatch FunctionRegex late_sig = Some caps /\
             submatch input_group caps = late_unnamed).
  { eexists. split; reflexivity. }
  destruct Hmatch as (caps & Hfind & Hinput).
  exact (Hsig late_sig caps _ _ Hfind Hinput).
Defined.

(** A named entry at position 26 panics as well, and so does the
    registration of a signature with 27 unnamed parameters. *)
Example late_named_entry_panics : parseParameters late_named = Panic.
Proof. reflexivity. Qed.

Example Handle_many_parameters_panics :
  Handle (NewCCIPReadResolver []) many_sig zero_address_handler = Panic.
Proof. reflexivity. Qed.

End Examples.

(** * Further properties *)

(** ** The request pipeline, path by path *)

Section PipelinePaths.
Context `{Codec}.

Lemma bind_ret {A B} (k : A -> M B) (a : A) : bind k (ret a) = k a.
Proof. unfold bind, ret. now destruct (k a). Qed.

Lemma bind_continue {A B} (k : A -> M B) (t : list call) (a : A) :
  bind k (t, Continue a) = prepend t (k a).
Proof. unfold bind, prepend. now destruct (k a). Qed.

Lemma bind_respond {A B} (k : A -> M B) resp :
  bind k (respond resp) = respond resp.
Proof. reflexivity. Qed.

Lemma bind_emit {B} (k : unit -> M B) (c : call) :
  bind k (emit c) = prepend [c] (k tt).
Proof. apply bind_continue. Qed.

Lemma prepend_prepend {A} (t1 t2 : list call) (m : M A) :
  prepend t1 (prepend t2 m) = prepend (t1 ++ t2) m.
Proof. unfold prepend. simpl. now rewrite app_assoc. Qed.

Lemma prepend_respond {A} (t : list call) resp :
  prepend t (respond resp : M A) = (t, Respond resp).
Proof. unfold prepend, respond. simpl. now rewrite List.app_nil_r. Qed.

Lemma prepend_nil {A} (m : M A) : prepend [] m = m.
Proof. now destruct m. Qed.

(** The validator block of [ServeHTTP] for a sender that is not
    rejected. *)
Lemma validation_stage r ccipReq :
  sender_rejected r ccipReq = false ->
  match senderValidator r with
  | Some validator =>
      if negb (String.eqb (Sender ccipReq) EmptyString) then
        bind (fun _ : unit =>
                match validator (common_HexToAddress (Sender ccipReq)) with
                | Some _ => respond (http_Error "unauthorized sender" StatusUnauthorized)
                | None => ret tt
                end)
          (emit (CallSenderValidator (common_HexToAddress (Sender ccipReq))))
      else ret tt
  | None => ret tt
  end = (validation_calls r ccipReq, Continue tt).
Proof.
  unfold sender_rejected, validation_calls.
  destruct (senderValidator r) as [validator|]; [|reflexivity].
  destruct (negb _); [|reflexivity]. simpl.
  intros Hpass. apply bool_decide_eq_false in Hpass.
  destruct (validator _) as [err|]; [contradict Hpass; eauto | reflexivity].
Qed.

Ltac enter_pipeline Hpass :=
  unfold ServeHTTP, mbind, M_bind, post; cbn [http_Method http_Body];
  change (negb (String.eqb MethodPost MethodPost)) with false; cbv iota;
  rewrite !bind_ret, (validation_stage _ _ Hpass), bind_continue, bind_emit.

Ltac decode_stage Hdecode Hlen Hsel :=
  rewrite Hdecode, bind_ret;
  rewrite (proj2 (Nat.ltb_ge _ _) Hlen), bind_ret;
  rewrite Hsel, bind_ret, bind_emit.

Ltac lookup_stage Hlookup :=
  rewrite Hlookup, bind_ret, bind_emit.

Ltac finish_path :=
  rewrite ?prepend_prepend, ?prepend_respond, <- ?app_assoc; reflexivity.

(** X1.  A well-formed call whose selector is not in the table is
    answered 404 right after the lookup: nothing is decoded and no
    handler runs. *)
Theorem ServeHTTP_unknown_function r ccipReq data byte4Sig :
  sender_rejected r ccipReq = false ->
  hexutil_Decode (Data ccipReq) = Some data ->
  (4 <= length data)%nat ->
  BigEndian_Uint32 (take 4 data) = Some byte4Sig ->
  handlers r !! byte4Sig = None ->
  ServeHTTP r (post ccipReq) =
  ((validation_calls r ccipReq ++
    [CallHexDecode (Data ccipReq); CallLookup byte4Sig])%list,
   Respond (http_Error "function not found" StatusNotFound)).
Proof.
  intros Hpass Hdecode Hlen Hsel Hlookup.
  enter_pipeline Hpass. decode_stage Hdecode Hlen Hsel.
  rewrite Hlookup, bind_respond. finish_path.
Qed.

(** X2.  When the bytes after the selector do not decode against the
    registered inputs, the answer is 400 and the handler is not
    called. *)
Theorem ServeHTTP_input_decode_error r ccipReq data byte4Sig registered :
  sender_rejected r ccipReq = false ->
  hexutil_Decode (Data ccipReq) = Some data ->
  (4 <= length data)%nat ->
  BigEndian_Uint32 (take 4 data) = Some byte4Sig ->
  handlers r !! byte4Sig = Some registered ->
  abi_UnpackValues (Inputs (method registered)) (drop 4 data) = None ->
  ServeHTTP r (post ccipReq) =
  ((validation_calls r ccipReq ++
    [CallHexDecode (Data ccipReq); CallLookup byte4Sig;
     CallUnpackValues (drop 4 data)])%list,
   Respond (http_Error "failed to unpack input parameters" StatusBadRequest)).
Proof.
  intros Hpass Hdecode Hlen Hsel Hlookup Hunpack.
  enter_pipeline Hpass. decode_stage Hdecode Hlen Hsel. lookup_stage Hlookup.
  rewrite Hunpack, bind_respond. finish_path.
Qed.

(** X3.  When the handler returns an error, the answer is 500 with the
    handler's message after the prefix [handler error: ], and the
    outputs are not encoded. *)
Theorem ServeHTTP_handler_error
    r ccipReq data byte4Sig registered inputs inputVars outputs err :
  sender_rejected r ccipReq = false ->
  hexutil_Decode (Data ccipReq) = Some data ->
  (4 <= length data)%nat ->
  BigEndian_Uint32 (take 4 data) = Some byte4Sig ->
  handlers r !! byte4Sig = Some registered ->
  abi_UnpackValues (Inputs (method registered)) (drop 4 data) = Some inputs ->
  bind_inputs (Inputs (method registered)) 0 inputs [] = Some inputVars ->
  handler registered {| Request_Method := method registered; Input := inputVars |} =
    (outputs, Some err) ->
  ServeHTTP r (post ccipReq) =
  ((validation_calls r ccipReq ++
    [CallHexDecode (Data ccipReq); CallLookup byte4Sig;
     CallUnpackValues (drop 4 data);
     CallHandler byte4Sig
       {| Request_Method := method registered; Input := inputVars |}])%list,
   Respond (http_Error ("handler error: " +:+ err) StatusInternalServerError)).
Proof.
  intros Hpass Hdecode Hlen Hsel Hlookup Hunpack Hbind Hhandler.
  enter_pipeline Hpass. decode_stage Hdecode Hlen Hsel. lookup_stage Hlookup.
  rewrite Hunpack, bind_ret, Hbind, bind_ret. cbv zeta.
  rewrite bind_emit, Hhandler, bind_respond. finish_path.
Qed.

(** X4.  When the handler's values do not encode against the
    registered outputs, the answer is 500. *)
Theorem ServeHTTP_output_encode_error
    r ccipReq data byte4Sig registered inputs inputVars outputs :
  sender_rejected r ccipReq = false ->
  hexutil_Decode (Data ccipReq) = Some data ->
  (4 <= length data)%nat ->
  BigEndian_Uint32 (take 4 data) = Some byte4Sig ->
  handlers r !! byte4Sig = Some registered ->
  abi_UnpackValues (Inputs (method registered)) (drop 4 data) = Some inputs ->
  bind_inputs (Inputs (method registered)) 0 inputs [] = Some inputVars ->
  handler registered {| Request_Method := method registered; Input := inputVars |} =
    (outputs, None) ->
  abi_PackValues (Outputs (method registered)) outputs = None ->
  ServeHTTP r (post ccipReq) =
  ((validation_calls r ccipReq ++
    [CallHexDecode (Data ccipReq); CallLookup byte4Sig;
     CallUnpackValues (drop 4 data);
     CallHandler byte4Sig
       {| Request_Method := method registered; Input := inputVars |};
     CallPackValues outputs])%list,
   Respond (http_Error "failed to pack output parameters" StatusInternalServerError)).
Proof.
  intros Hpass Hdecode Hlen Hsel Hlookup Hunpack Hbind Hhandler Hpack.
  enter_pipeline Hpass. decode_stage Hdecode Hlen Hsel. lookup_stage Hlookup.
  rewrite Hunpack, bind_ret, Hbind, bind_ret. cbv zeta.
  rewrite bind_emit, Hhandler, bind_ret, bind_emit, Hpack, bind_respond.
  finish_path.
Qed.

(** X5.  When every step succeeds, the calls are, in this order, the
    validation (if made), hex decoding, the lookup, input decoding, the
    handler on the bound inputs and output encoding; the answer is 200
    with the marshalled hex of the encoded outputs. *)
Theorem ServeHTTP_success
    r ccipReq data byte4Sig registered inputs inputVars outputs outputData respBytes :
  sender_rejected r ccipReq = false ->
  hexutil_Decode (Data ccipReq) = Some data ->
  (4 <= length data)%nat ->
  BigEndian_Uint32 (take 4 data) = Some byte4Sig ->
  handlers r !! byte4Sig = Some registered ->
  abi_UnpackValues (Inputs (method registered)) (drop 4 data) = Some inputs ->
  bind_inputs (Inputs (method registered)) 0 inputs [] = Some inputVars ->
  handler registered {| Request_Method := method registered; Input := inputVars |} =
    (outputs, None) ->
  abi_PackValues (Outputs (method registered)) outputs = Some outputData ->
  json_Marshal (hexutil_Encode outputData) = Some respBytes ->
  ServeHTTP r (post ccipReq) =
  ((validation_calls r ccipReq ++
    [CallHexDecode (Data ccipReq); CallLookup byte4Sig;
     CallUnpackValues (drop 4 data);
     CallHandler byte4Sig
       {| Request_Method := method registered; Input := inputVars |};
     CallPackValues outputs])%list,
   Respond (json_OK StatusOK respBytes)).
Proof.
  intros Hpass Hdecode Hlen Hsel Hlookup Hunpack Hbind Hhandler Hpack Hjson.
  enter_pipeline Hpass. decode_stage Hdecode Hlen Hsel. lookup_stage Hlookup.
  rewrite Hunpack, bind_ret, Hbind, bind_ret. cbv zeta.
  rewrite bind_emit, Hhandler, bind_ret, bind_emit, Hpack, bind_ret, Hjson.
  finish_path.
Qed.

(** X6.  A sender that is not rejected changes nothing in the run but
    the recorded call of the validator; a request without a sender is
    served exactly as if no validator were configured. *)
Theorem ServeHTTP_validation_passes_through r ccipReq :
  (sender_rejected r ccipReq = false ->
   ServeHTTP r (post ccipReq) =
   prepend (validation_calls r ccipReq)
     (ServeHTTP (without_validator r) (post ccipReq))) /\
  (Sender ccipReq = EmptyString ->
   ServeHTTP r (post ccipReq) = ServeHTTP (without_validator r) (post ccipReq)).
Proof.
  assert (Hgen : sender_rejected r ccipReq = false ->
            ServeHTTP r (post ccipReq) =
            prepend (validation_calls r ccipReq)
              (ServeHTTP (without_validator r) (post ccipReq))).
  { intros Hpass.
    unfold ServeHTTP, mbind, M_bind, post; cbn [http_Method http_Body].
    change (negb (String.eqb MethodPost MethodPost)) with false. cbv iota.
    rewrite !bind_ret, (validation_stage _ _ Hpass), bind_continue.
    cbn [senderValidator without_validator]. rewrite bind_ret. reflexivity. }
  split; [exact Hgen|].
  intros Hempty.
  assert (Hpass : sender_rejected r ccipReq = false).
  { unfold sender_rejected. rewrite Hempty. now destruct (senderValidator r). }
  rewrite (Hgen Hpass). unfold validation_calls. rewrite Hempty.
  destruct (senderValidator r); apply prepend_nil.
Qed.


End PipelinePaths.

(** ** What no run of the pipeline does *)

Section PipelineInvariants.
Context `{Codec}.

Lemma handler_calls_app t t' :
  handler_calls (t ++ t') = (handler_calls t + handler_calls t')%nat.
Proof. unfold handler_calls. now rewrite List.filter_app, length_app. Qed.

Lemma bind_handler_calls {A B} (m : M A) (k : A -> M B) (n n' : nat) :
  (handler_calls m.1 <= n)%nat ->
  (forall a, handler_calls (k a).1 <= n')%nat ->
  (handler_calls (bind k m).1 <= n + n')%nat.
Proof.
  destruct m as [t [a|resp|]]; simpl; intros Ht Hk; try lia.
  specialize (Hk a). destruct (k a) as [t' s]. simpl in *.
  rewrite handler_calls_app. lia.
Qed.

Ltac calls_leaf :=
  unfold handler_calls, bind, emit, ret, respond, crash;
  repeat case_match; simpl in *; simplify_eq; simpl; lia.

(** X8.  Whatever the resolver and the request, a run of [ServeHTTP]
    calls a handler at most once. *)
Theorem handler_invoked_at_most_once r req :
  (handler_calls (ServeHTTP r req).1 <= 1)%nat.
Proof.
  unfold ServeHTTP, mbind, M_bind.
  do 12 (apply (bind_handler_calls _ _ 0 1); [calls_leaf | intros]).
  cbv zeta.
  apply (bind_handler_calls _ _ 1 0); [calls_leaf | intros].
  repeat (apply (bind_handler_calls _ _ 0 0); [calls_leaf | intros]).
  calls_leaf.
Qed.

Lemma bind_answered {A} (m : M A) (k : A -> M unit) :
  stage_ok m.2 -> (forall a, answered (k a).2) -> answered (bind k m).2.
Proof.
  destruct m as [t [a|resp|]]; simpl; auto.
  intros _ Hk. specialize (Hk a). now destruct (k a).
Qed.

Ltac answered_leaf := repeat case_match; simpl; auto 10.

(** X9.  Every run of [ServeHTTP] ends in a response or a panic, never
    without an answer; an error response has status 400, 401, 404, 405
    or 500, and the JSON response has status 200. *)
Theorem ServeHTTP_status_codes r req :
  answered (ServeHTTP r req).2.
Proof.
  unfold ServeHTTP, mbind, M_bind.
  repeat (apply bind_answered; [answered_leaf | intros]).
  answered_leaf.
Qed.

Lemma bind_no_crash {A B} (m : M A) (k : A -> M B) :
  m.2 <> Crash ->
  (forall a, m.2 = Continue a -> (k a).2 <> Crash) ->
  (bind k m).2 <> Crash.
Proof.
  destruct m as [t [a|resp|]]; simpl; auto; try discriminate.
  intros _ Hk. specialize (Hk a eq_refl). now destruct (k a).
Qed.

Ltac no_crash_leaf :=
  unfold bind, emit, ret, respond, crash;
  repeat case_match; simpl in *; simplify_eq; simpl; discriminate.

(** X10.  If the codec never decodes more values than a registered
    method declares inputs, no request makes the code of [ServeHTTP]
    itself panic: its only slice and index expressions, [data[:4]] and
    [registered.method.Inputs[i]], stay in range.  (Handlers and
    library calls are modelled as returning.) *)
Theorem ServeHTTP_never_panics r req :
  arity_respected r -> (ServeHTTP r req).2 <> Crash.
Proof.
  intros Harity. unfold ServeHTTP, mbind, M_bind.
  do 4 (apply bind_no_crash; [no_crash_leaf | intros ? _]).
  apply bind_no_crash; [no_crash_leaf | intros data _].
  apply bind_no_crash; [no_crash_leaf | intros [] Hlen].
  apply bind_no_crash.
  { destruct (Nat.ltb_spec (length data) 4) as [|Hge]; [discriminate Hlen|].
    destruct (BigEndian_Uint32_Some (take 4 data)) as [sel ->]; [|discriminate].
    rewrite length_take. lia. }
  intros byte4Sig _.
  apply bind_no_crash; [no_crash_leaf | intros ? _].
  apply bind_no_crash; [no_crash_leaf | intros registered Hlookup].
  apply bind_no_crash; [no_crash_leaf | intros ? _].
  apply bind_no_crash; [no_crash_leaf | intros inputs Hunpack].
  apply bind_no_crash.
  { destruct (handlers r !! byte4Sig) as [reg|] eqn:Hreg; [|discriminate Hlookup].
    injection Hlookup as ->.
    destruct (abi_UnpackValues _ _) as [vs|] eqn:Hvs; [|discriminate Hunpack].
    injection Hunpack as ->.
    rewrite bind_inputs_zip; [discriminate|].
    simpl. apply (Harity _ _ _ _ Hreg Hvs). }
  intros inputVars _. cbv zeta.
  repeat (apply bind_no_crash; [no_crash_leaf | intros ? _]).
  no_crash_leaf.
Qed.

End PipelineInvariants.

(** ** Selectors as table keys *)

Section Uint32Facts.
Local Open Scope Z_scope.

Lemma lor_shiftl_add (a b n : Z) :
  0 <= n -> 0 <= a < 2 ^ n -> Z.lor a (Z.shiftl b n) = a + b * 2 ^ n.
Proof.
  intros Hn Ha.
  assert (Hland : Z.land a (Z.shiftl b n) = 0).
  { apply Z.bits_inj'. intros i Hi. rewrite Z.land_spec, Z.bits_0.
    destruct (Z.lt_ge_cases i n) as [Hlt|Hge].
    - rewrite (Z.shiftl_spec_low _ _ _ Hlt). apply andb_false_r.
    - destruct (Z.eq_dec a 0) as [->|Hne]; [now rewrite Z.bits_0|].
      assert (Hpow : 2 ^ n <= 2 ^ i) by (apply Z.pow_le_mono_r; lia).
      assert (Hlog : Z.log2 a < i) by (apply Z.log2_lt_pow2; lia).
      rewrite (Z.bits_above_log2 a i) by lia. reflexivity. }
  rewrite <- Z.shiftl_mul_pow2 by lia.
  rewrite <- Z.lxor_lor by exact Hland.
  symmetry. now apply Z.add_nocarry_lxor.
Qed.

Lemma byte_range (b : byte) : 0 <= Z.of_N (Byte.to_N b) < 256.
Proof. pose proof (Byte.to_N_bounded b). lia. Qed.

(** The four bytes are the base-256 digits of the result, most
    significant first. *)
Lemma BigEndian_Uint32_value b0 b1 b2 b3 rest :
  BigEndian_Uint32 (b0 :: b1 :: b2 :: b3 :: rest) =
  Some (Z.of_N (Byte.to_N b3) + 256 * Z.of_N (Byte.to_N b2) +
        65536 * Z.of_N (Byte.to_N b1) + 16777216 * Z.of_N (Byte.to_N b0)).
Proof.
  pose proof (byte_range b0). pose proof (byte_range b1).
  pose proof (byte_range b2). pose proof (byte_range b3).
  unfold BigEndian_Uint32. f_equal.
  rewrite (lor_shiftl_add _ _ 8) by lia.
  rewrite (lor_shiftl_add _ _ 16) by lia.
  rewrite (lor_shiftl_add _ _ 24) by lia.
  lia.
Qed.

Lemma byte_to_N_inj (a b : byte) : Byte.to_N a = Byte.to_N b -> a = b.
Proof.
  intros Hab. pose proof (Byte.of_to_N a) as Ha. pose proof (Byte.of_to_N b) as Hb.
  rewrite Hab in Ha. congruence.
Qed.

Lemma BigEndian_Uint32_injective (b b' : list byte) (v : Z) :
  length b = 4%nat -> length b' = 4%nat ->
  BigEndian_Uint32 b = Some v -> BigEndian_Uint32 b' = Some v ->
  b = b' /\ 0 <= v < 2 ^ 32.
Proof.
  destruct b as [|b0 [|b1 [|b2 [|b3 [|? ?]]]]]; try discriminate.
  destruct b' as [|c0 [|c1 [|c2 [|c3 [|? ?]]]]]; try discriminate.
  intros _ _. rewrite !BigEndian_Uint32_value. intros [= <-] [= Heq].
  pose proof (byte_range b0). pose proof (byte_range b1).
  pose proof (byte_range b2). pose proof (byte_range b3).
  pose proof (byte_range c0). pose proof (byte_range c1).
  pose proof (byte_range c2). pose proof (byte_range c3).
  split; [|lia].
  assert (Z.of_N (Byte.to_N b0) = Z.of_N (Byte.to_N c0)) by lia.
  assert (Z.of_N (Byte.to_N b1) = Z.of_N (Byte.to_N c1)) by lia.
  assert (Z.of_N (Byte.to_N b2) = Z.of_N (Byte.to_N c2)) by lia.
  assert (Z.of_N (Byte.to_N b3) = Z.of_N (Byte.to_N c3)) by lia.
  repeat f_equal; apply byte_to_N_inj; lia.
Qed.

End Uint32Facts.

(** ** The selector table and the binder *)

Section TableExtras.
Context `{Codec}.

(** X11.  Signatures whose methods have different IDs are stored under
    different keys, each a 32-bit number: both registrations succeed,
    both handlers stay in the table, and the order of the two
    registrations does not matter. *)
Theorem Handle_distinct_selectors_coexist
    (r : CCIPReadResolver) (sig1 sig2 : string) (h1 h2 : CCIPReadHandler)
    (m1 m2 : Method) :
  ParseFunction sig1 = Ok m1 ->
  ParseFunction sig2 = Ok m2 ->
  ID m1 <> ID m2 ->
  exists k1 k2 r1 r12 r2 r21,
    k1 <> k2 /\ (0 <= k1 < 2 ^ 32)%Z /\ (0 <= k2 < 2 ^ 32)%Z /\
    Handle r sig1 h1 = Ok r1 /\ Handle r1 sig2 h2 = Ok r12 /\
    Handle r sig2 h2 = Ok r2 /\ Handle r2 sig1 h1 = Ok r21 /\
    handlers r12 !! k1 = Some {| method := m1; handler := h1 |} /\
    handlers r12 !! k2 = Some {| method := m2; handler := h2 |} /\
    r21 = r12.
Proof.
  intros Hp1 Hp2 Hne.
  pose proof (ParseFunction_ID_length _ _ Hp1) as Hlen1.
  pose proof (ParseFunction_ID_length _ _ Hp2) as Hlen2.
  destruct (BigEndian_Uint32_Some (ID m1) Hlen1) as [k1 Hk1].
  destruct (BigEndian_Uint32_Some (ID m2) Hlen2) as [k2 Hk2].
  assert (Hk : k1 <> k2).
  { intros <-. apply Hne.
    apply (BigEndian_Uint32_injective _ _ k1 Hlen1 Hlen2 Hk1 Hk2). }
  exists k1, k2. do 4 eexists.
  split; [exact Hk|].
  split; [apply (BigEndian_Uint32_injective _ _ k1 Hlen1 Hlen1 Hk1 Hk1)|].
  split; [apply (BigEndian_Uint32_injective _ _ k2 Hlen2 Hlen2 Hk2 Hk2)|].
  split; [exact (Handle_inserts r sig1 h1 m1 k1 Hp1 Hk1)|].
  split; [exact (Handle_inserts _ sig2 h2 m2 k2 Hp2 Hk2)|].
  split; [exact (Handle_inserts r sig2 h2 m2 k2 Hp2 Hk2)|].
  split; [exact (Handle_inserts _ sig1 h1 m1 k1 Hp1 Hk1)|].
  unfold with_handlers. simpl.
  split; [rewrite lookup_insert_ne by auto; apply lookup_insert_eq|].
  split; [apply lookup_insert_eq|].
  f_equal. apply insert_insert_ne. auto.
Qed.

Lemma options_keep_empty_table options :
  Forall provided_option options ->
  forall r, handlers r = ∅ ->
    handlers (foldl (fun r option => option r) r options) = ∅.
Proof.
  induction 1 as [|o options Ho _ IH]; intros r Hr; [exact Hr|].
  simpl. apply IH. destruct Ho; exact Hr.
Qed.

(** X12.  Options are applied from left to right, and the options the
    package provides leave the table alone: a resolver built from them
    has an empty table, the validator of a trailing [GatewayValidator]
    and the encoder of a trailing [OutputEncoding], and a trailing
    [OutputEncoding] keeps the validator. *)
Theorem NewCCIPReadResolver_options (options : list Option) :
  Forall provided_option options ->
  handlers (NewCCIPReadResolver options) = ∅ /\
  (forall validator,
     senderValidator (NewCCIPReadResolver (options ++ [GatewayValidator validator])) =
     Some validator) /\
  (forall encoder,
     outputEncoder (NewCCIPReadResolver (options ++ [OutputEncoding encoder])) =
       Some encoder /\
     senderValidator (NewCCIPReadResolver (options ++ [OutputEncoding encoder])) =
       senderValidator (NewCCIPReadResolver options)).
Proof.
  intros Hopts. split; [|split].
  - unfold NewCCIPReadResolver. now apply options_keep_empty_table.
  - intros validator. unfold NewCCIPReadResolver. now rewrite foldl_app.
  - intros encoder. unfold NewCCIPReadResolver. now rewrite foldl_app.
Qed.

Lemma bind_inputs_overflow declared :
  forall inputs i inputVars,
    inputs <> [] ->
    (length declared < i + length inputs)%nat ->
    bind_inputs declared i inputs inputVars = None.
Proof.
  induction inputs as [|input inputs IH]; intros i inputVars Hne Hlen; [congruence|].
  simpl in *. destruct (declared !! i) as [arg|] eqn:Hi; [|reflexivity].
  apply lookup_lt_Some in Hi. apply IH; [|lia].
  intros ->. simpl in Hlen. lia.
Qed.

(** X13.  The loop that binds values to inputs checks no arity: with at
    most as many values as declared inputs it binds the values to the
    first inputs, in order, and leaves the other inputs unbound; with
    more values it panics on [Inputs[i]]. *)
Theorem bind_inputs_arity (declared : list Argument) (inputs : list value) :
  ((length inputs <= length declared)%nat ->
   bind_inputs declared 0 inputs [] = Some (zip_with bound declared inputs)) /\
  ((length declared < length inputs)%nat ->
   bind_inputs declared 0 inputs [] = None).
Proof.
  split; intros Hlen.
  - now rewrite bind_inputs_zip by (simpl; lia).
  - apply bind_inputs_overflow; [|simpl; lia].
    intros ->. simpl in Hlen. lia.
Qed.

End TableExtras.

(** ** Further properties of the signature parser *)

Section ParserExtras.
Context `{ABITypes}.

Ltac invert_derives :=
  repeat match goal with
  | D : derives (Cat _ _) _ _ |- _ => inversion D; subst; clear D
  | D : derives (Lit _) _ _ |- _ => inversion D; subst; clear D
  | D : derives (Class _) _ _ |- _ => inversion D; subst; clear D
  | D : derives (Star _) _ _ |- _ => inversion D; subst; clear D
  | D : derives (Plus _) _ _ |- _ => inversion D; subst; clear D
  | D : derives (Group _ _) _ _ |- _ => inversion D; subst; clear D
  | D : derives (Alt _ _) _ _ |- _ => inversion D; subst; clear D
  end.

(** The name and the mutability a match captures. *)
Lemma FunctionRegex_name (str : string) (caps : captures) :
  FindStringSubmatch FunctionRegex str = Some caps ->
  function_name (submatch functionName_group caps) = true /\
  (submatch mutability_group caps = "pure" \/
   submatch mutability_group caps = "view").
Proof.
  intros Hf. apply FindStringSubmatch_sound in Hf as (before & w & after & -> & D).
  unfold FunctionRegex, cat in D. simpl in D.
  invert_derives; simpl;
    repeat match goal with Hc : _ = true |- _ => rewrite Hc; clear Hc end; auto.
Qed.

Lemma Fields_nonempty (s : string) :
  Forall (fun field => field <> EmptyString) (strings.Fields s).
Proof.
  induction s as [|c s IH]; simpl; [constructor|].
  destruct (strings.isSpace c); [exact IH|].
  destruct s as [|c' s']; [repeat constructor; discriminate|].
  destruct (strings.isSpace c'); [constructor; [discriminate | exact IH]|].
  destruct (strings.Fields (String c' s')) as [|f fs].
  - repeat constructor. discriminate.
  - apply Forall_cons in IH as [_ IH]. constructor; [discriminate | exact IH].
Qed.

Lemma default_name_nonempty (i : nat) :
  (i < 26)%nat -> default_name i <> EmptyString.
Proof.
  intros Hi. do 26 (destruct i as [|i]; [discriminate|]). lia.
Qed.

Lemma slice_Some_in_range (i : nat) (letter : string) :
  slice paramNames i (i + 1) = Some letter -> (i < 26)%nat.
Proof.
  unfold slice. change (String.length paramNames) with 26%nat.
  destruct (Nat.leb_spec (i + 1) 26); [lia|].
  rewrite andb_false_r. discriminate.
Qed.

Lemma loop_arguments params :
  forall i abiArgs args,
    parseParameters_loop i params abiArgs = Ok args ->
    Forall (fun arg => Name arg <> EmptyString /\ Indexed arg = false) abiArgs ->
    Forall (fun arg => Name arg <> EmptyString /\ Indexed arg = false) args.
Proof.
  induction params as [|entry params IH]; intros i abiArgs args; simpl.
  - now intros [= <-].
  - destruct (String.eqb _ _); [apply IH|].
    pose proof (Fields_nonempty (strings.TrimSpace entry)) as Hfields.
    destruct (strings.Fields (strings.TrimSpace entry))
      as [|paramType [|given [|extra more]]]; try discriminate;
      (destruct (slice paramNames i (i + 1)) as [letter|] eqn:Hs; [|discriminate];
       destruct (abi_NewType paramType) as [abiType|]; [|discriminate];
       intros Hloop Hacc; apply (IH _ _ _ Hloop);
       apply Forall_app; split; [exact Hacc|];
       repeat constructor; simpl).
    + pose proof (slice_Some_in_range _ _ Hs) as Hi.
      apply slice_Some_default_name in Hs as ->.
      now apply default_name_nonempty.
    + apply Forall_cons in Hfields as [_ Hfields].
      now apply Forall_cons in Hfields as [Hgiven _].
Qed.

(** X14.  What a successful parse returns: a function whose name has at
    least two bytes, a letter followed by letters, digits or
    underscores; the raw name is the name; the mutability is [pure] or
    [view]; the flags are off; the signature is the name and the input
    types, comma-separated, in parentheses; the ID has four bytes; every
    input and output has a non-empty name and is not indexed. *)
Theorem ParseFunction_method_shape (str : string) (m : Method) :
  ParseFunction str = Ok m ->
  function_name (Method_Name m) = true /\
  RawName m = Method_Name m /\
  (StateMutability m = "pure" \/ StateMutability m = "view") /\
  Method_Type m = Function /\ Constant m = false /\ Payable m = false /\
  Sig m = Method_Name m +:+ "(" +:+
          Join (map (fun arg => abi_Type_String (Type_ arg)) (Inputs m)) "," +:+ ")" /\
  length (ID m) = 4%nat /\
  Forall (fun arg => Name arg <> EmptyString /\ Indexed arg = false)
    (Inputs m ++ Outputs m).
Proof.
  intros Hp. pose proof (ParseFunction_ID_length _ _ Hp) as Hid.
  apply ParseFunction_Ok_inv in Hp as (caps & ins & outs & Hf & Hi & Ho & ->).
  apply FunctionRegex_name in Hf as (Hname & Hmut).
  simpl in *.
  do 8 (split; [auto|]).
  apply Forall_app. split.
  - apply (loop_arguments _ _ _ _ Hi). constructor.
  - apply (loop_arguments _ _ _ _ Ho). constructor.
Qed.

(** X15.  The signature and the ID depend on the function name and the
    input types only: two signatures that parse to the same name and
    the same input types have the same signature and ID, whatever their
    parameter names, mutability and outputs. *)
Theorem selector_determinism (sig1 sig2 : string) (m1 m2 : Method) :
  ParseFunction sig1 = Ok m1 ->
  ParseFunction sig2 = Ok m2 ->
  Method_Name m1 = Method_Name m2 ->
  map (fun arg => abi_Type_String (Type_ arg)) (Inputs m1) =
  map (fun arg => abi_Type_String (Type_ arg)) (Inputs m2) ->
  Sig m1 = Sig m2 /\ ID m1 = ID m2.
Proof.
  intros Hp1 Hp2.
  apply ParseFunction_Ok_inv in Hp1 as (caps1 & ins1 & outs1 & _ & _ & _ & ->).
  apply ParseFunction_Ok_inv in Hp2 as (caps2 & ins2 & outs2 & _ & _ & _ & ->).
  simpl. intros -> ->. split; reflexivity.
Qed.

Lemma loop_typed params :
  forall i abiArgs args,
    parseParameters_loop i params abiArgs = Ok args ->
    exists new,
      args = (abiArgs ++ new)%list /\
      Forall2 (fun p arg =>
                 exists paramType named,
                   strings.Fields (snd p) = paramType :: named /\
                   abi_NewType paramType = Some (Type_ arg) /\
                   Indexed arg = false)
        (nonblank_entries_from i params) new.
Proof.
  induction params as [|entry params IH]; intros i abiArgs args.
  - simpl. intros [= <-]. exists []. rewrite List.app_nil_r.
    split; [reflexivity | constructor].
  - rewrite nonblank_entries_from_cons. simpl.
    destruct (String.eqb_spec (strings.TrimSpace entry) EmptyString) as [Hb|Hb].
    + intros Hloop. apply IH in Hloop as (new & -> & Hnew).
      exists new. split; [reflexivity|].
      destruct (decide _); [congruence | exact Hnew].
    + destruct (strings.Fields (strings.TrimSpace entry))
        as [|paramType [|given [|extra more]]] eqn:Hf; try discriminate;
        (destruct (slice paramNames i (i + 1)) as [letter|]; [|discriminate];
         destruct (abi_NewType paramType) as [abiType|] eqn:Hty; [|discriminate];
         intros Hloop; apply IH in Hloop as (new & -> & Hnew);
         eexists (_ :: new); rewrite <- app_assoc; split; [reflexivity|];
         destruct (decide _); [|contradiction]; constructor; [|exact Hnew];
         simpl; rewrite Hf; eauto).
Qed.

(** X16.  In a successfully parsed signature the type of every input
    and output is what the external type system makes of the first
    token of its entry, entry by entry in order, so that there are as
    many inputs (outputs) as non-blank entries. *)
Theorem parsed_types_by_position (str : string) (m : Method) :
  ParseFunction str = Ok m ->
  exists caps,
    FindStringSubmatch FunctionRegex str = Some caps /\
    typed_by_first_token (submatch input_group caps) (Inputs m) /\
    typed_by_first_token (submatch output_group caps) (Outputs m) /\
    length (Inputs m) = length (nonblank_entries (submatch input_group caps)) /\
    length (Outputs m) = length (nonblank_entries (submatch output_group caps)).
Proof.
  intros Hp. apply ParseFunction_Ok_inv in Hp as (caps & ins & outs & Hf & Hi & Ho & ->).
  exists caps. split; [exact Hf|]. simpl. unfold typed_by_first_token, nonblank_entries.
  unfold parseParameters in Hi, Ho.
  apply loop_typed in Hi as (newi & -> & Hi).
  apply loop_typed in Ho as (newo & -> & Ho). simpl.
  split; [exact Hi|]. split; [exact Ho|].
  split; symmetry; eapply Forall2_length; eauto.
Qed.

Lemma loop_no_panic params :
  forall i abiArgs,
    (i + length params <= 26)%nat ->
    parseParameters_loop i params abiArgs <> Panic.
Proof.
  induction params as [|entry params IH]; intros i abiArgs Hlen; simpl in *.
  - discriminate.
  - destruct (String.eqb _ _); [apply IH; lia|].
    destruct (strings.Fields _) as [|paramType [|given [|extra more]]];
      try discriminate.
    + rewrite slice_paramNames_in_range by lia.
      destruct (abi_NewType paramType); [apply IH; lia | discriminate].
    + rewrite slice_paramNames_in_range by lia.
      destruct (abi_NewType paramType); [apply IH; lia | discriminate].
Qed.

Lemma Split_comma_length (s : string) :
  length (strings.Split_comma s) = S (count_char "," s).
Proof.
  induction s as [|c s IH]; [reflexivity|]. simpl.
  destruct (Ascii.eqb_spec c ","%char) as [->|Hc]; simpl; [now rewrite IH|].
  destruct (strings.Split_comma s); simpl in *; lia.
Qed.

Lemma FunctionRegex_commas str caps :
  FindStringSubmatch FunctionRegex str = Some caps ->
  (count_char "," (submatch input_group caps) +
   count_char "," (submatch output_group caps) <= count_char "," str)%nat.
Proof.
  intros Hf.
  apply FunctionRegex_inv in Hf
    as (before & after & ws1 & name & ws2 & input & ws3 & mut & ws4 & ws5 & output &
        -> & -> & _).
  simpl. rewrite !count_char_append. lia.
Qed.

(** X17.  A string with at most 25 commas never makes [ParseFunction]
    panic: each of its two lists has at most 26 entries, so every
    [paramNames[i : i+1]] is in range. *)
Theorem ParseFunction_no_panic_up_to_25_commas (str : string) :
  (count_char "," str <= 25)%nat -> ParseFunction str <> Panic.
Proof.
  intros Hcommas.
  destruct (FindStringSubmatch FunctionRegex str) as [caps|] eqn:Hf.
  - pose proof (FunctionRegex_commas _ _ Hf) as Hle.
    rewrite (ParseFunction_match _ _ Hf).
    assert (Hin : parseParameters (submatch input_group caps) <> Panic).
    { apply loop_no_panic. rewrite Split_comma_length. lia. }
    assert (Hout : parseParameters (submatch output_group caps) <> Panic).
    { apply loop_no_panic. rewrite Split_comma_length. lia. }
    destruct (parseParameters (submatch input_group caps)); try discriminate;
      [|contradiction].
    destruct (parseParameters (submatch output_group caps)); try discriminate.
    contradiction.
  - rewrite (ParseFunction_no_match _ Hf). discriminate.
Qed.

Lemma loop_accepts params :
  forall i abiArgs,
    (i + length params <= 26)%nat ->
    ((exists args, parseParameters_loop i params abiArgs = Ok args) <->
     Forall accepted params).
Proof.
  induction params as [|entry params IH]; intros i abiArgs Hlen.
  - simpl. split; [constructor | eauto].
  - simpl in Hlen. split.
    + intros [args Hloop]. simpl in Hloop.
      destruct (String.eqb_spec (strings.TrimSpace entry) EmptyString) as [Hb|Hb].
      * constructor; [now left|]. apply (IH (S i) abiArgs); [lia | eauto].
      * destruct (strings.Fields (strings.TrimSpace entry))
          as [|paramType [|given [|extra more]]] eqn:Hf; try discriminate.
        -- destruct (slice paramNames i (i + 1)); [|discriminate].
           destruct (abi_NewType paramType) as [abiType|] eqn:Hty; [|discriminate].
           constructor.
           ++ right. exists paramType, []. unfold tokens. rewrite Hf.
              repeat split; eauto; simpl; lia.
           ++ eapply (IH (S i)); [lia | eauto].
        -- destruct (slice paramNames i (i + 1)); [|discriminate].
           destruct (abi_NewType paramType) as [abiType|] eqn:Hty; [|discriminate].
           constructor.
           ++ right. exists paramType, [given]. unfold tokens. rewrite Hf.
              repeat split; eauto; simpl; lia.
           ++ eapply (IH (S i)); [lia | eauto].
    + intros Hacc. apply Forall_cons in Hacc as [He Hacc].
      destruct He as [Hb | (t & named & Ht & Hn & [abiType Hty])].
      * rewrite (loop_blank _ _ _ _ Hb). apply IH; [lia | exact Hacc].
      * rewrite (loop_entry _ _ _ _ _ _ Ht Hn), slice_paramNames_in_range by lia.
        rewrite Hty. apply IH; [lia | exact Hacc].
Qed.

(** X18.  An ASCII parameter list of at most 26 entries parses if and
    only if every entry is blank or has one or two tokens of which the
    first is a recognised type. *)
Theorem parseParameters_succeeds_iff_accepted (paramStr : string) :
  ascii_only paramStr = true ->
  (length (strings.Split_comma paramStr) <= 26)%nat ->
  ((exists args, parseParameters paramStr = Ok args) <->
   Forall accepted (strings.Split_comma paramStr)).
Proof. intros _ Hlen. apply loop_accepts. simpl. lia. Qed.

Lemma loop_format_error params :
  forall i abiArgs k entry,
    params !! k = Some entry ->
    (i + k <= 26)%nat ->
    Forall accepted (take k params) ->
    (3 <= length (tokens entry))%nat ->
    parseParameters_loop i params abiArgs =
    Err (InvalidParameterFormat (strings.TrimSpace entry)).
Proof.
  induction params as [|e params IH]; intros i abiArgs k entry Hk Hi Hacc Hlen.
  - destruct k; discriminate.
  - destruct k as [|k].
    + injection Hk as ->. simpl. unfold tokens in Hlen.
      destruct (strings.Fields (strings.TrimSpace entry))
        as [|t [|n [|x more]]] eqn:Hf; simpl in Hlen; try lia.
      assert (Hnb : String.eqb (strings.TrimSpace entry) EmptyString = false)
        by now apply (Fields_nonempty_nonblank _ t (n :: x :: more)).
      now rewrite Hnb.
    + simpl in Hk. rewrite firstn_cons in Hacc.
      apply Forall_cons in Hacc as [He Hacc].
      destruct He as [Hb | (t & nm & Ht' & Hn' & [abiType Hty'])].
      * rewrite (loop_blank _ _ _ _ Hb).
        apply (IH (S i) abiArgs k entry); auto. lia.
      * rewrite (loop_entry _ _ _ _ _ _ Ht' Hn'), slice_paramNames_in_range by lia.
        rewrite Hty'. apply (IH (S i) _ k entry); auto. lia.
Qed.

(** X19.  When the first entry of an ASCII parameter list that is not
    accepted has three or more tokens, [parseParameters] returns the
    format error carrying the trimmed entry.  This holds up to and
    including position 26: the token count is checked before
    [paramNames] is sliced. *)
Theorem parseParameters_format_error (paramStr : string) (i : nat) (entry : string) :
  ascii_only paramStr = true ->
  strings.Split_comma paramStr !! i = Some entry ->
  (i <= 26)%nat ->
  Forall accepted (take i (strings.Split_comma paramStr)) ->
  (3 <= length (tokens entry))%nat ->
  parseParameters paramStr = Err (InvalidParameterFormat (strings.TrimSpace entry)).
Proof.
  intros _ Hi Hle Hacc Hlen. unfold parseParameters.
  apply (loop_format_error _ 0 [] i entry); auto.
Qed.

Lemma loop_blank_entries params :
  forall i abiArgs,
    Forall (fun entry => strings.TrimSpace entry = EmptyString) params ->
    parseParameters_loop i params abiArgs = Ok abiArgs.
Proof.
  induction params as [|entry params IH]; intros i abiArgs Hb; [reflexivity|].
  apply Forall_cons in Hb as [He Hb]. rewrite (loop_blank _ _ _ _ He). now apply IH.
Qed.

(** X20.  A list of blank entries only (the empty list, white space,
    stray commas) parses to no parameters, however many entries it has:
    a blank entry is skipped before [paramNames] is sliced. *)
Theorem parseParameters_blank_list (paramStr : string) :
  Forall (fun entry => strings.TrimSpace entry = EmptyString)
    (strings.Split_comma paramStr) ->
  parseParameters paramStr = Ok [].
Proof. intros Hb. unfold parseParameters. now apply loop_blank_entries. Qed.

(** *** Acceptance by the pattern *)

(** Greedy repetition over a run that the next byte ends: the
    continuation is tried first at the end of the run. *)
Lemma star_run {R} (p : ascii -> bool) (k : string -> option R) w rest res :
  all_chars p w = true ->
  stops p rest = true ->
  k rest = Some res ->
  star p k (w +:+ rest) = Some res.
Proof.
  intros Hw Hstop Hk. induction w as [|c w IH].
  - rewrite append_nil_l. destruct rest as [|c rest]; simpl in *; [exact Hk|].
    destruct (p c); [discriminate | exact Hk].
  - rewrite append_cons. simpl in *. apply andb_true_iff in Hw as [Hc Hw].
    now rewrite Hc, (IH Hw).
Qed.

Lemma exec_Cat {R} r1 r2 (k : string -> captures -> option R) s caps :
  exec (Cat r1 r2) k s caps = exec r1 (exec r2 k) s caps.
Proof. reflexivity. Qed.

Lemma exec_Lit_ok {R} l (k : string -> captures -> option R) s caps :
  exec (Lit l) k (l +:+ s) caps = k s caps.
Proof. simpl. now rewrite strip_prefix_append. Qed.

Lemma exec_Star_ok {R} p (k : string -> captures -> option R) w rest caps res :
  all_chars p w = true -> stops p rest = true ->
  k rest caps = Some res ->
  exec (Star p) k (w +:+ rest) caps = Some res.
Proof. intros. simpl. now apply star_run. Qed.

Lemma exec_Plus_ok {R} p (k : string -> captures -> option R) ws rest caps res :
  match ws with
  | String c w => p c && all_chars p w
  | EmptyString => false
  end = true ->
  stops p rest = true ->
  k rest caps = Some res ->
  exec (Plus p) k (ws +:+ rest) caps = Some res.
Proof.
  destruct ws as [|c w]; [discriminate|].
  intros Hw Hs Hk. apply andb_true_iff in Hw as [Hc Hw].
  rewrite append_cons. simpl. rewrite Hc. now apply star_run.
Qed.

Lemma exec_Group_Star_ok {R} name p (k : string -> captures -> option R)
    w rest caps res :
  all_chars p w = true -> stops p rest = true ->
  k rest ((name, w) :: caps) = Some res ->
  exec (Group name (Star p)) k (w +:+ rest) caps = Some res.
Proof.
  intros Hw Hs Hk. simpl. apply star_run; auto. now rewrite consumed_append.
Qed.

Lemma exec_Group_name_ok {R} group (k : string -> captures -> option R)
    name rest caps res :
  function_name name = true -> stops is_ident rest = true ->
  k rest ((group, name) :: caps) = Some res ->
  exec (Group group (Cat (Class is_letter) (Plus is_ident))) k (name +:+ rest) caps =
  Some res.
Proof.
  destruct name as [|c [|c' w]]; try discriminate. simpl function_name.
  intros Hname Hs Hk.
  apply andb_true_iff in Hname as [Hname Hw].
  apply andb_true_iff in Hname as [Hc Hc'].
  rewrite !append_cons. simpl. rewrite Hc, Hc'.
  apply star_run; auto.
  rewrite <- !append_cons, consumed_append. exact Hk.
Qed.

Lemma exec_Group_mutability_ok {R} name (k : string -> captures -> option R)
    mutability rest caps res :
  mutability = "pure" \/ mutability = "view" ->
  k rest ((name, mutability) :: caps) = Some res ->
  exec (Group name (Alt (Lit "pure") (Lit "view"))) k (mutability +:+ rest) caps =
  Some res.
Proof.
  intros [-> | ->] Hk; cbn [exec].
  - rewrite strip_prefix_append, consumed_append. now rewrite Hk.
  - rewrite strip_prefix_append, consumed_append.
    rewrite !append_cons. cbn [strip_prefix Ascii.eqb Bool.eqb]. exact Hk.
Qed.

Lemma letter_not_space c : is_letter c = true -> is_re_space c = false.
Proof.
  destruct c as [[] [] [] [] [] [] [] []]; intros Hc;
    first [discriminate Hc | reflexivity].
Qed.

Lemma space_not_ident c : is_re_space c = true -> is_ident c = false.
Proof.
  destruct c as [[] [] [] [] [] [] [] []]; intros Hc;
    first [discriminate Hc | reflexivity].
Qed.

Lemma FindStringSubmatch_at_start (r : regex) (s : string) (caps : captures) :
  exec r (fun _ caps => Some caps) s [] = Some caps ->
  FindStringSubmatch r s = Some caps.
Proof. intros He. destruct s; cbn [FindStringSubmatch]; now rewrite He. Qed.

Lemma FunctionRegex_accepts
    (ws1 name ws2 input ws3 mutability ws4 ws5 output after : string) :
  spaces1 ws1 = true -> function_name name = true -> spaces ws2 = true ->
  all_chars is_param_char input = true ->
  spaces1 ws3 = true -> mutability = "pure" \/ mutability = "view" ->
  spaces ws4 = true -> spaces1 ws5 = true ->
  all_chars is_param_char output = true ->
  FindStringSubmatch FunctionRegex
    (signature_text ws1 name ws2 input ws3 mutability ws4 ws5 output after) =
  Some [(output_group, output); (mutability_group, mutability);
        (input_group, input); (functionName_group, name)].
Proof.
  intros Hws1 Hname Hws2 Hin Hws3 Hmut Hws4 Hws5 Hout.
  apply FindStringSubmatch_at_start.
  unfold signature_text, FunctionRegex, cat, spaces, spaces1 in *. cbn [foldr].
  rewrite exec_Cat, exec_Lit_ok.
  rewrite exec_Cat. apply exec_Plus_ok; auto.
  { destruct name as [|c [|c' w]]; try discriminate.
    rewrite append_cons. simpl in *.
    apply andb_true_iff in Hname as [Hname _].
    apply andb_true_iff in Hname as [Hc _].
    now rewrite (letter_not_space _ Hc). }
  rewrite exec_Cat. apply exec_Group_name_ok; auto.
  { destruct ws2 as [|s ws2]; [reflexivity|].
    rewrite append_cons. simpl in *. apply andb_true_iff in Hws2 as [Hs _].
    now rewrite (space_not_ident _ Hs). }
  rewrite exec_Cat. apply exec_Star_ok; auto.
  rewrite exec_Cat, exec_Lit_ok.
  rewrite exec_Cat. apply exec_Group_Star_ok; auto.
  rewrite exec_Cat, exec_Lit_ok.
  rewrite exec_Cat. apply exec_Plus_ok; auto.
  { destruct Hmut as [-> | ->]; reflexivity. }
  rewrite exec_Cat. apply exec_Group_mutability_ok; auto.
  rewrite exec_Cat. apply exec_Star_ok; auto.
  rewrite exec_Cat, exec_Lit_ok.
  rewrite exec_Cat. apply exec_Plus_ok; auto.
  rewrite exec_Cat, exec_Lit_ok.
  rewrite exec_Cat. apply exec_Group_Star_ok; auto.
Qed.

(** X21.  A text in the documented signature format is accepted
    whatever follows it: when its two lists parse, [ParseFunction]
    returns the method of its name, its mutability and the parsed
    lists. *)
Theorem ParseFunction_accepts
    (ws1 name ws2 input ws3 mutability ws4 ws5 output after : string)
    (parsedInputs parsedOutputs : list Argument) :
  spaces1 ws1 = true -> function_name name = true -> spaces ws2 = true ->
  all_chars is_param_char input = true ->
  spaces1 ws3 = true -> mutability = "pure" \/ mutability = "view" ->
  spaces ws4 = true -> spaces1 ws5 = true ->
  all_chars is_param_char output = true ->
  parseParameters input = Ok parsedInputs ->
  parseParameters output = Ok parsedOutputs ->
  ParseFunction
    (signature_text ws1 name ws2 input ws3 mutability ws4 ws5 output after) =
  Ok (NewMethod name name Function mutability false false
        parsedInputs parsedOutputs).
Proof.
  intros Hws1 Hname Hws2 Hin Hws3 Hmut Hws4 Hws5 Hout Hpi Hpo.
  rewrite (ParseFunction_match _ _
             (FunctionRegex_accepts ws1 name ws2 input ws3 mutability ws4 ws5 output
                after Hws1 Hname Hws2 Hin Hws3 Hmut Hws4 Hws5 Hout)).
  simpl. now rewrite Hpi, Hpo.
Qed.

End ParserExtras.

(** * Further worked examples *)

Module MoreExamples.
Import Sample Worked MoreWorked.

(** The sample codec decodes one value per declared input. *)
Lemma UnpackValues_from_length (args : list Argument) :
  forall index data vals,
    UnpackValues_from index args data = Some vals -> length vals = length args.
Proof.
  induction args as [|arg args IH]; intros index data vals; simpl.
  - now intros [= <-].
  - destruct (Nat.ltb _ 32); [discriminate|].
    destruct (if is_word_type (Type_ arg) then _ else _) as [v|]; [|discriminate].
    destruct (UnpackValues_from (S index) args data) as [vs|] eqn:Hvs; [|discriminate].
    intros [= <-]. simpl. f_equal. apply (IH _ _ _ Hvs).
Qed.

Lemma sample_arity_respected (r : CCIPReadResolver) : arity_respected r.
Proof.
  intros byte4Sig registered data inputs _ Hunpack.
  apply Nat.eq_le_incl. exact (UnpackValues_from_length _ _ _ _ Hunpack).
Qed.

(** *** The paths of the pipeline *)

Lemma ServeHTTP_unknown_function_witness :
  handlers (addr_resolver zero_address_handler) !! text_selector = None /\
  ServeHTTP (addr_resolver zero_address_handler) (post (call_of text_call)) =
  ([CallHexDecode text_call; CallLookup text_selector],
   Respond (http_Error "function not found" StatusNotFound)).
Proof.
  split; [reflexivity|].
  apply (ServeHTTP_unknown_function (addr_resolver zero_address_handler)
           (call_of text_call) [x59; xd1; xd4; x3c] text_selector);
    first [reflexivity | simpl; lia].
Defined.

Lemma ServeHTTP_input_decode_error_witness :
  hexutil_Decode short_addr_call = Some [x3b; x3b; x57; xde; x00] /\
  abi_UnpackValues (Inputs addr_method) [x00] = None /\
  ServeHTTP (addr_resolver zero_address_handler) (post (call_of short_addr_call)) =
  ([CallHexDecode short_addr_call; CallLookup addr_selector; CallUnpackValues [x00]],
   Respond (http_Error "failed to unpack input parameters" StatusBadRequest)).
Proof.
  split; [reflexivity|]. split; [reflexivity|].
  apply (ServeHTTP_input_decode_error (addr_resolver zero_address_handler)
           (call_of short_addr_call) [x3b; x3b; x57; xde; x00] addr_selector
           {| method := addr_method; handler := zero_address_handler |});
    first [reflexivity | simpl; lia].
Defined.

Lemma ServeHTTP_handler_error_witness :
  hexutil_Decode addr_call = Some ([x3b; x3b; x57; xde] ++ addr_payload)%list /\
  failing_handler addr_request = ([], Some "no record") /\
  ServeHTTP (addr_resolver failing_handler) (post (call_of addr_call)) =
  ([CallHexDecode addr_call; CallLookup addr_selector; CallUnpackValues addr_payload;
    CallHandler addr_selector addr_request],
   Respond (http_Error "handler error: no record" StatusInternalServerError)).
Proof.
  split; [reflexivity|]. split; [reflexivity|].
  apply (ServeHTTP_handler_error (addr_resolver failing_handler)
           (call_of addr_call) ([x3b; x3b; x57; xde] ++ addr_payload)%list
           addr_selector {| method := addr_method; handler := failing_handler |}
           [word x01] (Input addr_request) [] "no record");
    first [reflexivity | simpl; lia].
Defined.

Lemma ServeHTTP_output_encode_error_witness :
  silent_handler addr_request = ([], None) /\
  abi_PackValues (Outputs addr_method) [] = None /\
  ServeHTTP (addr_resolver silent_handler) (post (call_of addr_call)) =
  ([CallHexDecode addr_call; CallLookup addr_selector; CallUnpackValues addr_payload;
    CallHandler addr_selector addr_request; CallPackValues []],
   Respond (http_Error "failed to pack output parameters" StatusInternalServerError)).
Proof.
  split; [reflexivity|]. split; [reflexivity|].
  apply (ServeHTTP_output_encode_error (addr_resolver silent_handler)
           (call_of addr_call) ([x3b; x3b; x57; xde] ++ addr_payload)%list
           addr_selector {| method := addr_method; handler := silent_handler |}
           [word x01] (Input addr_request) []);
    first [reflexivity | simpl; lia].
Defined.

Lemma ServeHTTP_success_witness :
  abi_PackValues (Outputs addr_method) [zeros 20] = Some (zeros 32) /\
  exists respBytes,
    json_Marshal (hexutil_Encode (zeros 32)) = Some respBytes /\
    ServeHTTP (addr_resolver zero_address_handler) (post (call_of addr_call)) =
    ([CallHexDecode addr_call; CallLookup addr_selector; CallUnpackValues addr_payload;
      CallHandler addr_selector addr_request; CallPackValues [zeros 20]],
     Respond (json_OK StatusOK respBytes)).
Proof.
  split; [reflexivity|]. eexists. split; [reflexivity|].
  apply (ServeHTTP_success (addr_resolver zero_address_handler)
           (call_of addr_call) ([x3b; x3b; x57; xde] ++ addr_payload)%list
           addr_selector {| method := addr_method; handler := zero_address_handler |}
           [word x01] (Input addr_request) [zeros 20] (zeros 32));
    first [reflexivity | simpl; lia].
Defined.

Lemma ServeHTTP_validation_passes_through_witness :
  (sender_rejected (NewCCIPReadResolver [Gateways [common_HexToAddress listed_gateway]])
     {| Data := addr_call; Sender := unlisted_sender |} = false /\
   validation_calls (NewCCIPReadResolver [Gateways [common_HexToAddress listed_gateway]])
     {| Data := addr_call; Sender := unlisted_sender |} =
   [CallSenderValidator (HexToAddress unlisted_sender)] /\
   ServeHTTP (NewCCIPReadResolver [Gateways [common_HexToAddress listed_gateway]])
     (post {| Data := addr_call; Sender := unlisted_sender |}) =
   prepend
     (validation_calls
        (NewCCIPReadResolver [Gateways [common_HexToAddress listed_gateway]])
        {| Data := addr_call; Sender := unlisted_sender |})
     (ServeHTTP (without_validator (NewCCIPReadResolver [Gateways [common_HexToAddress listed_gateway]]))
        (post {| Data := addr_call; Sender := unlisted_sender |}))) /\
  ServeHTTP (NewCCIPReadResolver [GatewayValidator reject_all])
    (post (call_of addr_call)) =
  ServeHTTP (without_validator (NewCCIPReadResolver [GatewayValidator reject_all]))
    (post (call_of addr_call)).
Proof.
  split.
  - split; [reflexivity|]. split; [reflexivity|].
    apply (proj1 (ServeHTTP_validation_passes_through
                    (NewCCIPReadResolver [Gateways [common_HexToAddress listed_gateway]])
                    {| Data := addr_call; Sender := unlisted_sender |})).
    reflexivity.
  - apply (proj2 (ServeHTTP_validation_passes_through
                    (NewCCIPReadResolver [GatewayValidator reject_all])
                    (call_of addr_call))).
    reflexivity.
Defined.


Lemma ServeHTTP_never_panics_witness :
  arity_respected (addr_resolver zero_address_handler) /\
  (ServeHTTP (addr_resolver zero_address_handler)
     (post (call_of short_addr_call))).2 <> Crash.
Proof.
  split; [apply sample_arity_respected|].
  apply (ServeHTTP_never_panics (addr_resolver zero_address_handler)
           (post (call_of short_addr_call))).
  apply sample_arity_respected.
Defined.

(** *** The table and the binder *)

Lemma Handle_distinct_selectors_coexist_witness :
  ParseFunction addr_sig = Ok addr_method /\
  ParseFunction text_sig = Ok text_method /\
  ID addr_method <> ID text_method /\
  exists k1 k2 r1 r12 r2 r21,
    k1 <> k2 /\ (0 <= k1 < 2 ^ 32)%Z /\ (0 <= k2 < 2 ^ 32)%Z /\
    Handle (NewCCIPReadResolver []) addr_sig zero_address_handler = Ok r1 /\
    Handle r1 text_sig echo_handler = Ok r12 /\
    Handle (NewCCIPReadResolver []) text_sig echo_handler = Ok r2 /\
    Handle r2 addr_sig zero_address_handler = Ok r21 /\
    handlers r12 !! k1 =
      Some {| method := addr_method; handler := zero_address_handler |} /\
    handlers r12 !! k2 = Some {| method := text_method; handler := echo_handler |} /\
    r21 = r12.
Proof.
  split; [reflexivity|]. split; [reflexivity|]. split; [discriminate|].
  apply (Handle_distinct_selectors_coexist (NewCCIPReadResolver [])
           addr_sig text_sig zero_address_handler echo_handler
           addr_method text_method); first [reflexivity | discriminate].
Defined.

Lemma NewCCIPReadResolver_options_witness :
  Forall provided_option [Gateways [common_HexToAddress listed_gateway]; OutputEncoding fixed_encoder] /\
  handlers (NewCCIPReadResolver
              [Gateways [common_HexToAddress listed_gateway]; OutputEncoding fixed_encoder]) = ∅ /\
  senderValidator
    (NewCCIPReadResolver
       [Gateways [common_HexToAddress listed_gateway]; OutputEncoding fixed_encoder;
        GatewayValidator reject_all]) = Some reject_all.
Proof.
  assert (Hopts : Forall provided_option
                    [Gateways [common_HexToAddress listed_gateway]; OutputEncoding fixed_encoder]).
  { repeat constructor. }
  split; [exact Hopts|].
  destruct (NewCCIPReadResolver_options
              [Gateways [common_HexToAddress listed_gateway]; OutputEncoding fixed_encoder] Hopts)
    as (Htable & Hvalidator & _).
  split; [exact Htable | exact (Hvalidator reject_all)].
Defined.

Lemma bind_inputs_arity_witness :
  bind_inputs (Inputs pair_method) 0 two_words [] =
    Some (zip_with bound (Inputs pair_method) two_words) /\
  bind_inputs (Inputs pair_method) 0 three_words [] = None.
Proof.
  split.
  - apply (proj1 (bind_inputs_arity (Inputs pair_method) two_words)). simpl. lia.
  - apply (proj2 (bind_inputs_arity (Inputs pair_method) three_words)). simpl. lia.
Defined.

(** *** The parser *)

Lemma ParseFunction_method_shape_witness :
  ParseFunction mixed_sig = Ok mixed_method /\
  Sig mixed_method = "mixed(uint256,address,bool)" /\
  function_name (Method_Name mixed_method) = true /\
  length (ID mixed_method) = 4%nat /\
  Forall (fun arg => Name arg <> EmptyString /\ Indexed arg = false)
    (Inputs mixed_method ++ Outputs mixed_method).
Proof.
  split; [reflexivity|]. split; [reflexivity|].
  destruct (ParseFunction_method_shape mixed_sig mixed_method eq_refl)
    as (Hname & _ & _ & _ & _ & _ & _ & Hid & Hargs).
  split; [exact Hname|]. split; [exact Hid | exact Hargs].
Defined.

Lemma selector_determinism_witness :
  ParseFunction addr_sig = Ok addr_method /\
  ParseFunction addr_sig_renamed = Ok addr_method_renamed /\
  Inputs addr_method <> Inputs addr_method_renamed /\
  Sig addr_method = Sig addr_method_renamed /\
  ID addr_method = ID addr_method_renamed.
Proof.
  split; [reflexivity|]. split; [reflexivity|]. split; [discriminate|].
  apply (selector_determinism addr_sig addr_sig_renamed
           addr_method addr_method_renamed); reflexivity.
Defined.

Lemma parsed_types_by_position_witness :
  ParseFunction mixed_sig = Ok mixed_method /\
  exists caps,
    FindStringSubmatch FunctionRegex mixed_sig = Some caps /\
    typed_by_first_token (submatch input_group caps) (Inputs mixed_method) /\
    typed_by_first_token (submatch output_group caps) (Outputs mixed_method) /\
    length (Inputs mixed_method) =
      length (nonblank_entries (submatch input_group caps)) /\
    length (Outputs mixed_method) =
      length (nonblank_entries (submatch output_group caps)).
Proof.
  split; [reflexivity|].
  apply (parsed_types_by_position mixed_sig mixed_method). reflexivity.
Defined.

Lemma ParseFunction_no_panic_up_to_25_commas_witness :
  count_char "," mixed_sig = 4%nat /\ ParseFunction mixed_sig <> Panic.
Proof.
  split; [reflexivity|].
  apply (ParseFunction_no_panic_up_to_25_commas mixed_sig).
  change (count_char "," mixed_sig) with 4%nat. lia.
Defined.

Lemma parseParameters_succeeds_iff_accepted_witness :
  ascii_only malformed_third = true /\
  length (strings.Split_comma malformed_third) = 4%nat /\
  ((exists args, parseParameters malformed_third = Ok args) <->
   Forall accepted (strings.Split_comma malformed_third)).
Proof.
  split; [reflexivity|]. split; [reflexivity|].
  apply (parseParameters_succeeds_iff_accepted malformed_third); [reflexivity|].
  change (length (strings.Split_comma malformed_third)) with 4%nat. lia.
Defined.

Lemma parseParameters_format_error_witness :
  ascii_only malformed_third = true /\
  strings.Split_comma malformed_third !! 2%nat = Some "bool x y" /\
  Forall accepted (take 2 (strings.Split_comma malformed_third)) /\
  parseParameters malformed_third = Err (InvalidParameterFormat "bool x y").
Proof.
  assert (Hacc : Forall accepted (take 2 (strings.Split_comma malformed_third))).
  { change (take 2 (strings.Split_comma malformed_third))
      with ["uint256 a"; " address"].
    constructor; [|constructor; [|constructor]]; right.
    - exists "uint256", ["a"]. repeat split; [simpl; lia | now exists "uint256"].
    - exists "address", []. repeat split; [simpl; lia | now exists "address"]. }
  split; [reflexivity|]. split; [reflexivity|]. split; [exact Hacc|].
  apply (parseParameters_format_error malformed_third 2 "bool x y");
    [reflexivity | reflexivity | lia | exact Hacc | simpl; lia].
Defined.

Lemma parseParameters_blank_list_witness :
  Forall (fun entry => strings.TrimSpace entry = EmptyString)
    (strings.Split_comma " , ,") /\
  parseParameters " , ," = Ok [].
Proof.
  assert (Hblank : Forall (fun entry => strings.TrimSpace entry = EmptyString)
                     (strings.Split_comma " , ,")).
  { repeat constructor. }
  split; [exact Hblank|].
  apply (parseParameters_blank_list " , ,"). exact Hblank.
Defined.

Lemma ParseFunction_accepts_witness :
  signature_text " " "addr" "" "bytes32 node" " " "view" " " " " "address" ")" =
    unbalanced_sig /\
  ParseFunction unbalanced_sig =
  Ok (NewMethod "addr" "addr" Function "view" false false
        [argument "node" "bytes32"] [argument "a" "address"]).
Proof.
  split; [reflexivity|].
  apply (ParseFunction_accepts " " "addr" "" "bytes32 node" " " "view" " " " "
           "address" ")" [argument "node" "bytes32"] [argument "a" "address"]);
    first [reflexivity | now right].
Defined.

End MoreExamples.
